(** * igshelf: media iterators, album reconstruction and the download service

    A shallow embedding of the Go packages [igshelf], [internal/archive],
    [internal/instagram], [internal/mock] and [internal/downloader], followed
    by the properties of the iterator protocol, of the album grouping and of
    the download run that the specification states.

    Conventions.  Go strings and byte slices are Rocq strings (sequences of
    bytes).  A Go [error] is the text of its message, [nil] is [None], and
    [fmt.Errorf("...: %w", err)] is concatenation.  A [*Media] that may be
    [nil] is an [option Media]; slices of pointers are lists of values, which
    is sound because a [Media] is never mutated after it is built.  Slice
    indices ([int]) are natural numbers: none of them can reach the 63-bit
    limit in fewer than 2^63 calls. *)

From Equations Require Import Equations.
From stdpp Require Import gmap strings list fin_maps.
From Stdlib Require Import ZArith Ascii DecimalString Permutation Sorted.

Local Open Scope string_scope.
Local Open Scope list_scope.

(** A Go [error] value; [None] stands for [nil]. *)
Definition error : Type := string.

(** [fmt.Errorf(msg + ": %w", err)]. *)
Definition wrap (msg : string) (e : error) : error := msg +:+ ": " +:+ e.

(** ** Package time (the part the program uses) *)
Module time.
Local Open Scope Z_scope.

(** A [time.Time] as the program observes it: the instant (seconds since
    the Unix epoch and nanoseconds within the second) and the offset of its
    location in seconds east of UTC. *)
Record Time : Type := mkTime { unix : Z; nsec : Z; offset : Z }.

(** The zero [Time]: January 1, year 1, 00:00:00 UTC. *)
Definition zero : Time := mkTime (-62135596800) 0 0.

(** [t.Equal(u)]: the same instant, whatever the locations. *)
Definition Equal (t u : Time) : bool :=
  (unix t =? unix u) && (nsec t =? nsec u).

(** [t.After(u)]. *)
Definition After (t u : Time) : bool :=
  (unix u <? unix t) || ((unix t =? unix u) && (nsec u <? nsec t)).

(** Year and month of a day count since the Unix epoch (proleptic
    Gregorian calendar). *)
Definition civil (days : Z) : Z * Z :=
  let z := days + 719468 in
  let era := z / 146097 in
  let doe := z - era * 146097 in
  let yoe := (doe - doe / 1460 + doe / 36524 - doe / 146096) / 365 in
  let doy := doe - (365 * yoe + yoe / 4 - yoe / 100) in
  let mp := (5 * doy + 2) / 153 in
  let m := if mp <? 10 then mp + 3 else mp - 9 in
  (yoe + era * 400 + (if m <=? 2 then 1 else 0), m).

(** [appendInt]: decimal with a sign and zero padding to [width]. *)
Definition appendInt (x : Z) (width : nat) : string :=
  let digits := NilZero.string_of_uint (N.to_uint (Z.to_N (Z.abs x))) in
  let pad := String.concat "" (replicate (width - String.length digits)%nat "0") in
  (if x <? 0 then "-" else "") +:+ pad +:+ digits.

(** [t.Format("200601_")]: year, month and a literal underscore, in the
    location of [t]. *)
Definition Format_200601_ (t : Time) : string :=
  let '(y, m) := civil ((unix t + offset t) / 86400) in
  appendInt y 4 +:+ appendInt m 2 +:+ "_".

(** [time.Date(y, mo, d, h, mi, s, 0, time.UTC)] for dates of the
    Gregorian calendar, used to write test data down. *)
Definition Date (y mo d h mi s : Z) : Time :=
  let y' := if mo <=? 2 then y - 1 else y in
  let era := y' / 400 in
  let yoe := y' - era * 400 in
  let doy := (153 * (if 2 <? mo then mo - 3 else mo + 9) + 2) / 5 + d - 1 in
  let doe := yoe * 365 + yoe / 4 - yoe / 100 + doy in
  mkTime ((era * 146097 + doe - 719468) * 86400 + h * 3600 + mi * 60 + s) 0 0.

End time.

(** ** Package path/filepath (Unix separators) *)
Module filepath.

(** The text after the last occurrence of [c], if [c] occurs. *)
Fixpoint after_last (c : ascii) (s : string) : option string :=
  match s with
  | EmptyString => None
  | String a s' =>
      match after_last c s' with
      | Some r => Some r
      | None => if Ascii.eqb a c then Some s' else None
      end
  end.

(** The second result of [filepath.Split]: what follows the final
    separator. *)
Definition Split_file (path : string) : string :=
  default path (after_last "/" path).

(** [filepath.Ext] on a name without separators: the suffix that starts
    at the final dot, empty when there is no dot. *)
Definition Ext (name : string) : string :=
  match after_last "." name with
  | Some r => "." +:+ r
  | None => ""
  end.

(** [filepath.Join(dir, name)] for a clean [dir] and a [name] without
    separators or dot elements; an empty element is ignored. *)
Definition Join (dir name : string) : string :=
  if String.eqb name "" then dir
  else if String.eqb dir "" then name
  else dir +:+ "/" +:+ name.

End filepath.

(** ** Package igshelf: the domain model *)
Module igshelf.

Definition MediaTypeImage : string := "IMAGE".
Definition MediaTypeVideo : string := "VIDEO".
Definition MediaTypeAlbum : string := "CAROUSEL_ALBUM".

(** [Media] represents an image, video, or album. *)
#[warnings="-register-all"]
Inductive Media : Type := mkMedia {
  ID : string;
  Type_ : string;
  Caption : string;
  Location : string;
  ThumbnailLocation : string;
  Filename : string;
  ThumbnailFilename : string;
  Permalink : string;
  TakenAt : time.Time;
  Children : list Media
}.

(** The result of running a piece of the program: it returns, it panics,
    it blocks for ever, or the model ran out of steps. *)
Inductive res (A : Type) : Type :=
| Ok (a : A)
| Panic
| Deadlock
| OutOfFuel.
Arguments Ok {A} a.
Arguments Panic {A}.
Arguments Deadlock {A}.
Arguments OutOfFuel {A}.

(** A [context.Context] as far as [ctx.Err()] shows it. *)
Definition Context : Type := option error.
Definition Background : Context := None.
Definition Canceled : error := "context canceled".
Definition ctx_Err (ctx : Context) : option error := ctx.

(** The [MediaIter] interface. [iter_Next] returns the result of [Next]
    and the iterator after the call. *)
Class MediaIter (I : Type) : Type := {
  iter_Next : I -> bool * I;
  iter_Media : I -> option Media;
  iter_Err : I -> option error
}.

(** The loop [for iter.Next() { timeline = append(timeline, iter.Media()) }]
    with at most [fuel] calls of [Next]. A [nil] media makes the program
    panic as soon as the entry is dereferenced; the model stops there. *)
Fixpoint drain {I : Type} `{MediaIter I} (fuel : nat) (it : I)
  : res (list Media * I) :=
  match fuel with
  | O => OutOfFuel
  | S fuel' =>
      let '(more, it') := iter_Next it in
      if more then
        match iter_Media it' with
        | None => Panic
        | Some m =>
            match drain fuel' it' with
            | Ok (ms, it'') => Ok (m :: ms, it'')
            | Panic => Panic
            | Deadlock => Deadlock
            | OutOfFuel => OutOfFuel
            end
        end
      else Ok ([], it')
  end.

(** The state of an iterator after [n] further calls of [Next]. *)
Definition after_calls {I : Type} `{MediaIter I} (n : nat) (it : I) : I :=
  Nat.iter n (fun i => snd (iter_Next i)) it.

End igshelf.

(** ** Package archive: the timeline of a zip archive *)
Module archive.
Import igshelf.

Definition tocFilename : string := "media.json".

(** [media]: an entry of media.json. *)
Record media : Type := mkRaw {
  raw_Caption : string;
  raw_TakenAt : time.Time;
  raw_Path : string
}.

(** [nomenclature]: the content of media.json. *)
Record nomenclature : Type := mkNomenclature {
  Videos : list media;
  Photos : list media
}.

(** A file of the archive, by what [List] can observe of it: [f.Open()]
    fails, or the file opens and decoding it as JSON into a
    [nomenclature] fails (a file of length zero gives [io.EOF]) or
    succeeds. *)
Inductive zipFile : Type :=
| OpenFails (e : error)
| DecodeFails (e : error)
| Decodes (nom : nomenclature).

(** [MediaService]: [toc] maps paths to files of the archive. *)
Record MediaService : Type := mkService { toc : gmap string zipFile }.

(** [MediaIter] is an iterator for media timeline. *)
Record MediaIter : Type := mkIter {
  err : option error;
  ctx : Context;
  cursor : nat;
  current : option Media;
  timeline : list Media
}.

(** The iterator a test builds:
    [MediaIter{ctx: ctx, timeline: timeline}]. *)
Definition new_iter (c : Context) (tl : list Media) : MediaIter :=
  mkIter None c 0 None tl.

(** The body of the two loops of [List] over [nom.Photos] and
    [nom.Videos]. *)
Definition leaf (type : string) (raw : media) : Media :=
  let fname := filepath.Split_file (raw_Path raw) in
  {| ID := String.substring 0
             (String.length fname - String.length (filepath.Ext fname)) fname;
     Type_ := type;
     Caption := raw_Caption raw;
     Location := raw_Path raw;
     ThumbnailLocation := "";
     Filename := time.Format_200601_ (raw_TakenAt raw) +:+ fname;
     ThumbnailFilename := "";
     Permalink := "";
     TakenAt := raw_TakenAt raw;
     Children := [] |}.

(** The comparison given to [sort.Slice] in [List]. *)
Definition newer (a b : Media) : bool := time.After (TakenAt a) (TakenAt b).

Section WithSort.
(** [sort.Slice], which is not stable: the order it leaves among entries
    that compare equal is not specified, so it is a parameter here. *)
Variable sort_Slice : (Media -> Media -> bool) -> list Media -> list Media.

(** [MediaService.List]. *)
Definition List (s : MediaService) (c : Context) : MediaIter :=
  match toc s !! tocFilename with
  | None => mkIter (Some (tocFilename +:+ " not found in archive")) c 0 None []
  | Some (OpenFails e) =>
      mkIter (Some (wrap ("failed to open archived " +:+ tocFilename) e)) c 0 None []
  | Some (DecodeFails e) =>
      mkIter (Some (wrap ("failed to unmarshal archived " +:+ tocFilename) e)) c 0 None []
  | Some (Decodes nom) =>
      let timeline :=
        ((leaf MediaTypeImage <$> Photos nom) ++ (leaf MediaTypeVideo <$> Videos nom))%list in
      mkIter None c 0 None (sort_Slice newer timeline)
  end.
End WithSort.

(** The loop
    [for i := it.cursor + 1; i < len(it.timeline); i++ { ...; offset = i }]
    over [rest = timeline[i:]]; the result is the final [offset]. *)
Fixpoint scan (m : Media) (rest : list Media) (i offset : nat) : nat :=
  match rest with
  | [] => offset
  | x :: rest' =>
      if negb (time.Equal (TakenAt m) (TakenAt x)) || negb (String.eqb (Caption m) (Caption x))
      then offset
      else scan m rest' (S i) i
  end.

(** [MediaIter.Media]. *)
Definition Media_ (it : MediaIter) : option Media := current it.

(** [MediaIter.Err]. *)
Definition Err (it : MediaIter) : option error := err it.

(** Where [Next] looks: "the cursor is shifted accordingly to skip the
    children of the current media if it has any". *)
Definition shifted (it : MediaIter) : nat :=
  match Media_ it with
  | Some m =>
      if decide (0 < length (Children m))%nat
      then (cursor it + length (Children m))%nat
      else S (cursor it)
  | None => cursor it
  end.

(** [MediaIter.Next]: the result and the iterator after the call. The
    lookup [timeline it !! cursor'] is [None] exactly when
    [it.cursor >= len(it.timeline)]. *)
Definition Next (it : MediaIter) : bool * MediaIter :=
  if bool_decide (err it <> None) || bool_decide (ctx_Err (ctx it) <> None)
  then (false, it)
  else
    let cursor' := shifted it in
    match timeline it !! cursor' with
    | None => (false, mkIter (err it) (ctx it) cursor' (current it) (timeline it))
    | Some m =>
        let offset := scan m (drop (S cursor') (timeline it)) (S cursor') 0 in
        if decide (cursor' < offset)%nat
        then (true, mkIter (err it) (ctx it) cursor'
                      (Some {| ID := ID m +:+ "album";
                               Type_ := MediaTypeAlbum;
                               Caption := Caption m;
                               Location := "";
                               ThumbnailLocation := "";
                               Filename := "";
                               ThumbnailFilename := "";
                               Permalink := "";
                               TakenAt := TakenAt m;
                               Children := take (S offset - cursor') (drop cursor' (timeline it)) |})
                      (timeline it))
        else (true, mkIter (err it) (ctx it) cursor' (Some m) (timeline it))
    end.

#[global] Instance archive_iter : igshelf.MediaIter MediaIter :=
  {| iter_Next := Next; iter_Media := Media_; iter_Err := Err |}.

(** The context of the iterator is canceled between two calls. *)
Definition cancel (it : MediaIter) : MediaIter :=
  mkIter (err it) (Some Canceled) (cursor it) (current it) (timeline it).

End archive.

(** ** Package instagram: the timeline of the Basic Display API *)
Module instagram.
Import igshelf.

(** [media]: an image, video, or album as the API returns it. *)
#[warnings="-register-all"]
Inductive media : Type := mkRaw {
  api_ID : string;
  api_Type : string;
  api_Caption : string;
  api_URL : string;
  api_Permalink : string;
  api_ThumbnailURL : string;
  api_TakenAt : time.Time;
  api_Children : list media
}.

(** [mediaListResp]: a page; [After] is [Paging.Cursors.After]. *)
Record mediaListResp : Type := mkPage {
  Batch : list media;
  After : string
}.

(** What one request of [fetch] comes to: [NewRequest] and [Do] succeed and
    decode a page, or one of them fails. *)
Inductive response : Type :=
| Page (v : mediaListResp)
| Failure (e : error).

(** The [switch] on the media type that assigns the file names: the result
    is [(Filename, ThumbnailFilename)]. *)
Definition filenames (type fname : string) : string * string :=
  if String.eqb type MediaTypeImage || String.eqb type MediaTypeAlbum
  then (fname +:+ ".jpg", "")
  else if String.eqb type MediaTypeVideo
  then (fname +:+ ".mp4", fname +:+ "_cover.jpg")
  else ("", "").

(** The body of the inner loop of [fetch], over [raw.Children.Data];
    [takenAt] is [mm[i].TakenAt], the date of the album. *)
Definition child (takenAt : time.Time) (c : media) : Media :=
  let fname := time.Format_200601_ takenAt +:+ api_ID c in
  {| ID := api_ID c;
     Type_ := api_Type c;
     Caption := "";
     Location := api_URL c;
     ThumbnailLocation := api_ThumbnailURL c;
     Filename := (filenames (api_Type c) fname).1;
     ThumbnailFilename := (filenames (api_Type c) fname).2;
     Permalink := "";
     TakenAt := time.zero;
     Children := [] |}.

(** The body of the outer loop of [fetch], over [v.Batch]. *)
Definition item (raw : media) : Media :=
  let fname := time.Format_200601_ (api_TakenAt raw) +:+ api_ID raw in
  {| ID := api_ID raw;
     Type_ := api_Type raw;
     Caption := api_Caption raw;
     Location := api_URL raw;
     ThumbnailLocation := api_ThumbnailURL raw;
     Filename := (filenames (api_Type raw) fname).1;
     ThumbnailFilename := (filenames (api_Type raw) fname).2;
     Permalink := api_Permalink raw;
     TakenAt := api_TakenAt raw;
     Children := child (api_TakenAt raw) <$> api_Children raw |}.

(** The state the closure [fetch] captures: [after] is
    [queryParams["after"]] ([None] while the key is not set), [server] the
    responses the API will give to the requests still to come, in order. *)
Record fetcher : Type := mkFetcher {
  after : option string;
  server : list response
}.

(** The error of a request that gets no response at all. *)
Definition no_response : error := "EOF".

(** The closure [fetch] built by [List]: the batch, the error, and the
    state of the closure after the call. *)
Definition fetch (f : fetcher) : list Media * option error * fetcher :=
  if bool_decide (after f = Some "") then ([], None, f)
  else
    match server f with
    | [] => ([], Some no_response, f)
    | Failure e :: srv => ([], Some e, mkFetcher (after f) srv)
    | Page v :: srv => (item <$> Batch v, None, mkFetcher (Some (After v)) srv)
    end.

(** [MediaIter] is an iterator for collection of media. *)
Record MediaIter : Type := mkIter {
  fetch_ : fetcher;
  err : option error;
  cursor : nat;
  batch : list Media
}.

(** [MediaService.List], for a service whose client will get the responses
    [srv]. *)
Definition List (srv : list response) (c : Context) : MediaIter :=
  mkIter (mkFetcher None srv) None 0 [].

(** [MediaIter.Media]; the index is out of range where Go panics. *)
Definition Media_ (mi : MediaIter) : option Media := batch mi !! cursor mi.

(** [MediaIter.Err]. *)
Definition Err (mi : MediaIter) : option error := err mi.

(** [MediaIter.Next]: the result and the iterator after the call. *)
Definition Next (mi : MediaIter) : bool * MediaIter :=
  if bool_decide (err mi <> None) then (false, mi)
  else if decide (Z.of_nat (length (batch mi)) - 1 <= Z.of_nat (cursor mi))%Z
  then
    let '(b, e, f) := fetch (fetch_ mi) in
    if bool_decide (e <> None) || bool_decide (length b = 0%nat)
    then (false, mkIter f e 0 b)
    else (true, mkIter f e 0 b)
  else (true, mkIter (fetch_ mi) (err mi) (S (cursor mi)) (batch mi)).

#[global] Instance instagram_iter : igshelf.MediaIter MediaIter :=
  {| iter_Next := Next; iter_Media := Media_; iter_Err := Err |}.

End instagram.

(** ** Package mock as the tests use it (no function is overridden) *)
Module mock.
Import igshelf.

(** [MediaIter]: an iterator over [Batch]. *)
Record MediaIter : Type := mkIter {
  Batch : list Media;
  err : option error;
  cursor : nat;
  current : option Media
}.

(** [&mock.MediaIter{Batch: batch}]. *)
Definition new_iter (b : list Media) : MediaIter := mkIter b None 0 None.

Definition Media_ (it : MediaIter) : option Media := current it.
Definition Err (it : MediaIter) : option error := err it.

Definition Next (it : MediaIter) : bool * MediaIter :=
  let cursor' := if Media_ it is Some _ then S (cursor it) else cursor it in
  match Batch it !! cursor' with
  | None => (false, mkIter (Batch it) (err it) cursor' (current it))
  | Some m => (true, mkIter (Batch it) (err it) cursor' (Some m))
  end.

#[global] Instance mock_iter : igshelf.MediaIter MediaIter :=
  {| iter_Next := Next; iter_Media := Media_; iter_Err := Err |}.

End mock.

(** ** Package os and io/ioutil (the part the download service uses) *)
Module os.

(** The file system under the destination directory: the regular files
    with their content, and the paths at which [ioutil.WriteFile] fails
    (a directory, a read-only place, ...) with the error it gives. *)
Record FS : Type := mkFS {
  files : gmap string string;
  faults : gmap string error
}.

(** The system errors that matter here. *)
Inductive errno : Type := ENOENT | EEXIST | ENOTEMPTY | EACCES.

(** The error of [os.Stat]: [nil] for a file that exists. *)
Definition Stat (fs : FS) (path : string) : option errno :=
  match files fs !! path with
  | Some _ => None
  | None => Some ENOENT
  end.

(** [os.IsExist]: the error reports that a file or directory already
    exists. It is [false] for [nil]. *)
Definition IsExist (e : option errno) : bool :=
  match e with
  | Some EEXIST | Some ENOTEMPTY => true
  | _ => false
  end.

(** [ioutil.WriteFile(path, data, 0600)]: the file is created or replaced,
    unless the path is one where writing fails. *)
Definition WriteFile (fs : FS) (path data : string) : FS * option error :=
  match faults fs !! path with
  | Some e => (fs, Some e)
  | None => (mkFS (<[path := data]> (files fs)) (faults fs), None)
  end.

End os.

(** ** Package downloader: the service that copies a timeline

    The worker pool is modelled by one of its schedules: the work units are
    handled one after the other in the order of the queue, each worker
    running to its end before the next unit is taken. What the schedule
    leaves open, namely how many units still reach a worker once the
    context of the group is done, is the parameter [grace] of a run. *)
Module downloader.
Import igshelf.

Definition defaultMaxWorkers : Z := 10.

(** The three results of [MediaService.Download]; [thumbnail] is [None]
    for a [nil] slice. *)
Record download : Type := mkDownload {
  content : string;
  thumbnail : option string;
  dl_err : option error
}.

(** [Service]: the media service [ig] (its [List] and [Download]), the
    repository [db] (its [Store]) and the size of the pool. *)
Record Service (I : Type) : Type := mkService {
  ig_List : Context -> I;
  ig_Download : Context -> Media -> download;
  db_Store : list Media -> option error;
  maxWorkers : Z
}.
Arguments mkService {I}.
Arguments ig_List {I}.
Arguments ig_Download {I}.
Arguments db_Store {I}.
Arguments maxWorkers {I}.

(** What a run does to the outside, in order. *)
Inductive event : Type :=
| Stored (tl : list Media) (r : option error)
| Fetched (m : Media) (r : option error)
| Wrote (path data : string) (r : option error)
| Logged (m : Media) (e : error).

(** The goroutine started for one media: the error it returns, the file
    system and the events it leaves. *)
Definition worker {I : Type} (s : Service I) (c : Context) (contentDirPath : string)
    (m : Media) (fs : os.FS) : option error * os.FS * list event :=
  if String.eqb (Filename m) "" then (None, fs, [])
  else
    let contentPath := filepath.Join contentDirPath (Filename m) in
    if os.IsExist (os.Stat fs contentPath) then (None, fs, [])
    else
      let d := ig_Download s c m in
      match dl_err d with
      | Some e => (None, fs, [Fetched m (Some e); Logged m e])
      | None =>
          match os.WriteFile fs contentPath (content d) with
          | (fs1, Some e) =>
              (Some (wrap ("failed to store media content " +:+ ID m) e), fs1,
               [Fetched m None; Wrote contentPath (content d) (Some e)])
          | (fs1, None) =>
              match thumbnail d with
              | None => (None, fs1, [Fetched m None; Wrote contentPath (content d) None])
              | Some t =>
                  let thumbnailPath := filepath.Join contentDirPath (ThumbnailFilename m) in
                  match os.WriteFile fs1 thumbnailPath t with
                  | (fs2, Some e) =>
                      (Some (wrap ("failed to store media thumbnail " +:+ ID m) e), fs2,
                       [Fetched m None; Wrote contentPath (content d) None;
                        Wrote thumbnailPath t (Some e)])
                  | (fs2, None) =>
                      (None, fs2,
                       [Fetched m None; Wrote contentPath (content d) None;
                        Wrote thumbnailPath t None])
                  end
              end
          end
      end.

(** "Line up all the media (including children) for downloading." *)
Definition queue (timeline : list Media) : list Media :=
  flat_map (fun m => m :: Children m) timeline.

(** The context [errgroup.WithContext(ctx)] gives: done when [ctx] is, or
    when a goroutine of the group has returned an error. *)
Definition group_ctx (parent : Context) (gerr : option error) : Context :=
  match parent, gerr with
  | Some e, _ => Some e
  | None, Some _ => Some Canceled
  | None, None => None
  end.

(** The error [g.Wait()] returns is the first one of the group. *)
Definition first_error (gerr r : option error) : option error :=
  match gerr with
  | Some e => Some e
  | None => r
  end.

(** The copy of the queued media, along one schedule of the pool: the
    workers run one after another, in the order of the queue and each to
    its end. For each unit the producer offers it on the channel, or, when
    the context of the group is done, may take [<-ctx.Done()] instead and
    return [ctx.Err()]: it does so once [grace] units have still been let
    through. The order of the events of different workers in the trace is
    that of this schedule only; what is stated of every run is stated of
    the error returned, of the files left and of the events as a
    collection, which do not depend on it. *)
Fixpoint copy {I : Type} (s : Service I) (parent : Context) (contentDirPath : string)
    (grace : nat) (work : list Media) (gerr : option error) (fs : os.FS)
    : option error * os.FS * list event :=
  match work with
  | [] => (gerr, fs, [])
  | m :: rest =>
      match group_ctx parent gerr, grace with
      | Some e, O => (first_error gerr (Some e), fs, [])
      | c, _ =>
          let grace' := if c is Some _ then pred grace else grace in
          let '(r, fs1, ev) := worker s c contentDirPath m fs in
          let '(g, fs2, ev') :=
            copy s parent contentDirPath grace' rest (first_error gerr r) fs1 in
          (g, fs2, ev ++ ev')
      end
  end.

(** What a run that returns leaves: the error it returns, the file system,
    and the events in order. *)
Record outcome : Type := mkOutcome {
  result : option error;
  disk : os.FS;
  trace : list event
}.

(** The first unit of the queue reaches [s.sem <- token{}]. *)
Definition reaches_semaphore (parent : Context) (grace : nat) (work : list Media) : bool :=
  match work, parent, grace with
  | [], _, _ => false
  | _ :: _, Some _, O => false
  | _ :: _, _, _ => true
  end.

(** [Service.Download]. [make(chan, n)] panics for a negative [n]; with a
    pool of size zero the semaphore has no room and nobody ever takes a
    token from it, so the first unit blocks the run for ever. *)
Definition Download {I : Type} `{MediaIter I} (s : Service I) (grace fuel : nat)
    (c : Context) (contentDirPath : string) (fs : os.FS) : res outcome :=
  match drain fuel (ig_List s c) with
  | Ok (timeline, iter) =>
      match iter_Err iter with
      | Some e => Ok (mkOutcome (Some (wrap "failed to fetch the timeline" e)) fs [])
      | None =>
          match db_Store s timeline with
          | Some e =>
              Ok (mkOutcome (Some (wrap "failed to store the timeline" e)) fs
                    [Stored timeline (Some e)])
          | None =>
              if decide (maxWorkers s < 0)%Z then Panic
              else if bool_decide (maxWorkers s = 0%Z)
                      && reaches_semaphore c grace (queue timeline)
              then Deadlock
              else
                let '(g, fs', ev) :=
                  copy s c contentDirPath grace (queue timeline) None fs in
                Ok (mkOutcome g fs' (Stored timeline None :: ev))
          end
      end
  | Panic => Panic
  | Deadlock => Deadlock
  | OutOfFuel => OutOfFuel
  end.

(** The timeline was persisted: [Store] was called and returned [nil]. *)
Definition persisted (o : outcome) : Prop :=
  exists tl, Stored tl None ∈ trace o.

(** The paths the run wrote successfully, and the media it fetched. *)
Definition written (ev : list event) : list string :=
  omap (fun e => match e with Wrote p _ None => Some p | _ => None end) ev.

Definition fetched (ev : list event) : list Media :=
  omap (fun e => match e with Fetched m _ => Some m | _ => None end) ev.

(** A write of the run failed. *)
Definition write_failed (ev : list event) : Prop :=
  exists p d e, Wrote p d (Some e) ∈ ev.

End downloader.

(** ** Package archive, continued: the files of the archive and their copy *)
Module archive_files.
Import igshelf.

(** [strings.HasSuffix]. *)
Definition HasSuffix (s suffix : string) : bool :=
  bool_decide (String.length suffix <= String.length s)%nat
  && String.eqb
       (String.substring (String.length s - String.length suffix) (String.length suffix) s)
       suffix.

(** What [f.Open()] followed by reading to the end gives for a file of the
    archive. *)
Inductive reading : Type :=
| OpenError (e : error)
| ReadError (e : error)
| Data (content : string).

(** A [*zip.File]. *)
Record File : Type := mkFile {
  Name : string;
  read : reading
}.

(** The test of the loop of [NewService]. *)
Definition listed (name : string) : bool :=
  String.eqb name archive.tocFilename || HasSuffix name ".jpg" || HasSuffix name ".mp4".

(** [NewService]: [opened] is the result of [zip.OpenReader], the files of
    the archive in their order or an error; the result is the map [toc] of
    the service. *)
Definition NewService (opened : error + list File) : error + gmap string File :=
  match opened with
  | inl e => inl e
  | inr files =>
      inr (foldl (fun toc f => if listed (Name f) then <[Name f := f]> toc else toc) ∅ files)
  end.

(** [MediaService.Download]: "thumbnail is not available". *)
Definition Download (toc : gmap string File) (c : Context) (m : Media) : downloader.download :=
  match toc !! Location m with
  | None => downloader.mkDownload "" None (Some ("file not found in archive " +:+ Location m))
  | Some f =>
      match read f with
      | OpenError e =>
          downloader.mkDownload "" None
            (Some (wrap ("failed to open file in archive " +:+ Location m) e))
      | ReadError e => downloader.mkDownload "" None (Some (wrap "failed to read content" e))
      | Data content => downloader.mkDownload content None None
      end
  end.

Section WithDecoder.
(** [json.NewDecoder(rc).Decode(&nom)] on the content of a file. *)
Variable Decode : string -> error + archive.nomenclature.

(** A file as [List] observes it; an error of reading is the error of the
    decoder. *)
Definition observe (f : File) : archive.zipFile :=
  match read f with
  | OpenError e => archive.OpenFails e
  | ReadError e => archive.DecodeFails e
  | Data content =>
      match Decode content with
      | inl e => archive.DecodeFails e
      | inr nom => archive.Decodes nom
      end
  end.

(** The service over the map [toc], for [List]. *)
Definition service (toc : gmap string File) : archive.MediaService :=
  archive.mkService (observe <$> toc).
End WithDecoder.

End archive_files.

(** ** Package instagram, continued: the copy of a media over HTTP *)
Module instagram_files.
Import igshelf.

(** What a GET of a URL comes to: [http.NewRequest] fails, [Do] fails,
    reading the body fails, or the body is read. *)
Inductive reply : Type :=
| RequestError (e : error)
| DoError (e : error)
| BodyError (e : error)
| Body (data : string).

(** [MediaService.Download]; [get] gives the reply to a request made with
    the context [c] for a URL. *)
Definition Download (get : Context -> string -> reply) (c : Context) (m : Media)
  : downloader.download :=
  match get c (Location m) with
  | RequestError e => downloader.mkDownload "" None (Some e)
  | DoError e => downloader.mkDownload "" None (Some (wrap "failed to download content" e))
  | BodyError e => downloader.mkDownload "" None (Some (wrap "failed to read content" e))
  | Body content =>
      if String.eqb (ThumbnailLocation m) "" then downloader.mkDownload content None None
      else
        match get c (ThumbnailLocation m) with
        | RequestError e => downloader.mkDownload content None (Some e)
        | DoError e =>
            downloader.mkDownload content None (Some (wrap "failed to download thumbnail" e))
        | BodyError e =>
            downloader.mkDownload content None (Some (wrap "failed to read thumbnail" e))
        | Body thumbnail => downloader.mkDownload content (Some thumbnail) None
        end
  end.

End instagram_files.

(** ** Package downloader, continued: the construction of the service *)
Module downloader_config.
Import igshelf downloader.

(** [ConfigOption]; the logger leaves no trace in the model. *)
Inductive ConfigOption : Type :=
| WithMaxWorkers (n : Z)
| WithLogger.

(** [opt(&s)]. *)
Definition configure {I : Type} (s : Service I) (opt : ConfigOption) : Service I :=
  match opt with
  | WithMaxWorkers n => mkService (ig_List s) (ig_Download s) (db_Store s) n
  | WithLogger => s
  end.

(** [NewService]: the options are applied in order to the default service,
    then [make(chan token, s.maxWorkers)] panics for a negative size. *)
Definition NewService {I : Type} (list_ : Context -> I)
    (download_ : Context -> Media -> download) (store_ : list Media -> option error)
    (options : list ConfigOption) : res (Service I) :=
  let s := foldl configure (mkService list_ download_ store_ defaultMaxWorkers) options in
  if decide (maxWorkers s < 0)%Z then Panic else Ok s.

End downloader_config.

(** ** Package jsonfile: the timeline in a JSON file *)
Module jsonfile.
Import igshelf.

(** [MediaRepository]. *)
Record MediaRepository : Type := NewMediaRepository { filename : string }.

(** The error of [ioutil.ReadFile] for a file that does not exist. *)
Definition no_such_file (name : string) : error :=
  "open " +:+ name +:+ ": no such file or directory".

Section WithCodec.
(** [json.Marshal] and [json.Unmarshal] for a timeline. *)
Variable Marshal : list Media -> error + string.
Variable Unmarshal : string -> error + list Media.

(** [MediaRepository.List]. *)
Definition List (r : MediaRepository) (fs : os.FS) : error + list Media :=
  match os.files fs !! filename r with
  | None =>
      inl (wrap ("failed to read timeline from disk " +:+ filename r)
             (no_such_file (filename r)))
  | Some b =>
      match Unmarshal b with
      | inl e => inl (wrap ("failed to unmarshal timeline " +:+ filename r) e)
      | inr timeline => inr timeline
      end
  end.

(** [MediaRepository.Store]: "the file is always overwritten". *)
Definition Store (r : MediaRepository) (timeline : list Media) (fs : os.FS)
  : os.FS * option error :=
  match Marshal timeline with
  | inl e => (fs, Some (wrap ("failed to marshal timeline " +:+ filename r) e))
  | inr b =>
      match os.WriteFile fs (filename r) b with
      | (fs', Some e) =>
          (fs', Some (wrap ("failed to write timeline on disk " +:+ filename r) e))
      | (fs', None) => (fs', None)
      end
  end.
End WithCodec.

End jsonfile.

(** ** The album grouping, as the specification words it *)
Module grouping.
Import igshelf.

(** Two entries belong to the same post: their dates are the same instant
    and their captions are the same string. *)
Definition same_post (m x : Media) : bool :=
  time.Equal (TakenAt m) (TakenAt x) && String.eqb (Caption m) (Caption x).

(** The entries at the front of [l] that belong to the post of [m], and
    what follows them. *)
Fixpoint followers (m : Media) (l : list Media) : list Media :=
  match l with
  | x :: l' => if same_post m x then x :: followers m l' else []
  | [] => []
  end.

Fixpoint remainder (m : Media) (l : list Media) : list Media :=
  match l with
  | x :: l' => if same_post m x then remainder m l' else l
  | [] => []
  end.

(** A run: its first entry and the entries after it. *)
Definition run : Type := (Media * list Media)%type.
Definition members (r : run) : list Media := r.1 :: r.2.

(** The maximal contiguous runs of a timeline, from its front. *)
Equations? runs (l : list Media) : list run by wf (length l) lt :=
  runs [] := [];
  runs (m :: l) := (m, followers m l) :: runs (remainder m l).
Proof.
  clear runs. induction l as [|x l IH]; simpl; [lia|].
  destruct (same_post m x); simpl in *; lia.
Qed.

(** The synthesized album of a run. *)
Definition album (r : run) : Media :=
  {| ID := ID r.1 +:+ "album";
     Type_ := MediaTypeAlbum;
     Caption := Caption r.1;
     Location := "";
     ThumbnailLocation := "";
     Filename := "";
     ThumbnailFilename := "";
     Permalink := "";
     TakenAt := TakenAt r.1;
     Children := members r |}.

(** What a run yields: the leaf itself when it is alone, an album
    otherwise. *)
Definition item_of_run (r : run) : Media :=
  match r.2 with
  | [] => r.1
  | _ :: _ => album r
  end.

(** A timeline is flat when no entry has children. *)
Definition flat (tl : list Media) : Prop := Forall (fun m => Children m = []) tl.

(** An entry of a timeline read from an archive: an image or a video,
    without children, thumbnail or permalink. *)
Definition archived (m : Media) : Prop :=
  (Type_ m = MediaTypeImage \/ Type_ m = MediaTypeVideo)
  /\ Children m = [] /\ ThumbnailLocation m = "" /\ ThumbnailFilename m = ""
  /\ Permalink m = "".

End grouping.

(** ** The pages of the remote iterator, as the specification words them *)
Module paging.
Import igshelf instagram.

(** How the loop over the iterator ends: a page came with an empty cursor,
    a page came empty but with a cursor, or a request failed. *)
Inductive ending : Type :=
| Exhausted
| EmptyPage
| Faulted (e : error).

(** The media the loop [for iter.Next() { ... iter.Media() }] collects from
    the responses [srv], and how it ends. *)
Fixpoint collected (srv : list response) : list Media * ending :=
  match srv with
  | [] => ([], Faulted no_response)
  | Failure e :: _ => ([], Faulted e)
  | Page v :: srv' =>
      match Batch v with
      | [] => ([], if String.eqb (After v) "" then Exhausted else EmptyPage)
      | _ :: _ =>
          let rest := if String.eqb (After v) "" then ([], Exhausted) else collected srv' in
          ((item <$> Batch v) ++ rest.1, rest.2)
      end
  end.

(** What is still to be collected by an iterator whose closure is in the
    state [f]: nothing once the cursor it holds is empty. *)
Definition to_come (f : fetcher) : list Media * ending :=
  if bool_decide (after f = Some "") then ([], Exhausted) else collected (server f).

(** A finite sequence of pages terminated by a page whose cursor is empty:
    the last page has an empty cursor and no page before it has. *)
Definition terminated (pages : list mediaListResp) : Prop :=
  exists init last, pages = init ++ [last]
    /\ After last = "" /\ Forall (fun p => After p <> "") init.

(** No page before the last one is empty. *)
Definition inner_pages_nonempty (pages : list mediaListResp) : Prop :=
  exists init last, pages = init ++ [last] /\ Forall (fun p => Batch p <> []) init.

(** [sum(len(page))]. *)
Definition total (pages : list mediaListResp) : nat :=
  sum_list (length ∘ Batch <$> pages).

End paging.

(** ** Notions used to state further properties *)
Module timeline.
Import igshelf.

(** The media of an item that have a file of their own: the children of an
    album, the item itself otherwise. *)
Definition leaves (m : Media) : list Media :=
  match Children m with
  | [] => [m]
  | _ :: _ => Children m
  end.

(** Newest first: no entry is newer than an entry before it. *)
Definition newest_first (tl : list Media) : Prop :=
  StronglySorted (fun a b => time.After (TakenAt b) (TakenAt a) = false) tl.

(** The media has a file name, so a worker copies it. *)
Definition named (m : Media) : Prop := Filename m <> "".

#[global] Instance named_dec (m : Media) : Decision (named m).
Proof. unfold named. apply _. Defined.

(** No thumbnail and no permalink, as in an archive. *)
Definition bare (m : Media) : Prop :=
  ThumbnailLocation m = "" /\ ThumbnailFilename m = "" /\ Permalink m = "".

(** The paths a run over the timeline [tl] may write under [dir]: the
    content path and the thumbnail path of every queued media that has a
    file name. *)
Definition targets (dir : string) (tl : list Media) : list string :=
  flat_map (fun m => [filepath.Join dir (Filename m);
                      filepath.Join dir (ThumbnailFilename m)])
    (filter named (downloader.queue tl)).

End timeline.

(** ** Test data: the scenarios of the specification and of the tests *)
Module testdata.
Import igshelf.

Definition T1 : time.Time := time.Date 2020 6 21 1 12 14.
Definition T2 : time.Time := time.Date 2020 3 21 1 12 14.

(** A leaf of a flat timeline. *)
Definition entry (id type caption : string) (t : time.Time) : Media :=
  mkMedia id type caption "" "" "" "" "" t [].

(** The flat list of the concrete scenario: [a] and [b] share date and
    caption, [z] is older. *)
Definition a : Media := entry "a" MediaTypeImage "c" T1.
Definition b : Media := entry "b" MediaTypeImage "c" T1.
Definition z : Media := entry "z" MediaTypeImage "x" T2.
Definition scenario : list Media := [a; b; z].

(** Three media with file names, as a source lists them. *)
Definition file_entry (id : string) : Media :=
  mkMedia id MediaTypeImage "" ("src/" +:+ id) "" (id +:+ ".jpg") "" "" T1 [].
Definition X : Media := file_entry "x".
Definition Y : Media := file_entry "y".
Definition Z_ : Media := file_entry "z".

(** The video of the tests of the download service. *)
Definition video : Media :=
  mkMedia "17863188140095492" MediaTypeVideo ""
    "https://video.cdninstagram.com/v/t50.2886-16/2..."
    "https://scontent.cdninstagram.com/v/t51.29350-15/2..."
    "17863188140095492.mp4" "17863188140095492_cover.jpg" "" time.zero [].

(** The album of testdata/media_list.json, with one of its children. *)
Definition api_video : instagram.media :=
  instagram.mkRaw "17850885734317674" MediaTypeVideo ""
    "https://video.cdninstagram.com/v/t50.2886-16/1..." ""
    "https://scontent.cdninstagram.com/v/t51.29350-15/1..." time.zero [].
Definition api_album : instagram.media :=
  instagram.mkRaw "17850307850323541" MediaTypeAlbum "Still jumping"
    "https://scontent.cdninstagram.com/v/t51.29350-15/..."
    "https://www.instagram.com/p/CGDFCNqHJv1/" ""
    (time.Date 2020 10 7 15 55 33) [api_video].
Definition api_image (id : string) : instagram.media :=
  instagram.mkRaw id MediaTypeImage "" ("https://cdn/" +:+ id) "" "" T1 [].

(** Two pages: the first is empty but has a cursor, the second ends the
    timeline. *)
Definition pages_with_gap : list instagram.mediaListResp :=
  [instagram.mkPage [] "QVFIUm"; instagram.mkPage [api_image "1"] ""].

(** Two pages of two and one media. *)
Definition pages_2_1 : list instagram.mediaListResp :=
  [instagram.mkPage [api_image "1"; api_album] "QVFIUm"; instagram.mkPage [api_image "3"] ""].

(** An archive without media.json, and one whose media.json lists nothing. *)
Definition archive_without_manifest : archive.MediaService := archive.mkService ∅.
Definition archive_listing_nothing : archive.MediaService :=
  archive.mkService {[ "media.json" := archive.Decodes (archive.mkNomenclature [] []) ]}.

(** An empty destination directory, and one where nothing can be written. *)
Definition empty_disk : os.FS := os.mkFS ∅ ∅.

(** A download that succeeds for every media but [X]. *)
Definition download_but_X (c : Context) (m : Media) : downloader.download :=
  if String.eqb (ID m) "x"
  then downloader.mkDownload "" None (Some "file not found in archive src/x")
  else downloader.mkDownload ("content of " +:+ ID m) None None.

(** A download that succeeds for every media. *)
Definition download_all (c : Context) (m : Media) : downloader.download :=
  downloader.mkDownload ("content of " +:+ ID m) None None.

(** A service over the mock iterator, with a repository that stores. *)
Definition mock_service (tl : list Media)
    (dl : Context -> Media -> downloader.download) : downloader.Service mock.MediaIter :=
  downloader.mkService (fun _ => mock.new_iter tl) dl (fun _ => None)
    downloader.defaultMaxWorkers.

(** A stable sort by insertion, standing for [sort.Slice] where a concrete
    one is needed. *)
Fixpoint insert_sorted (less : Media -> Media -> bool) (m : Media) (l : list Media)
  : list Media :=
  match l with
  | [] => [m]
  | x :: l' => if less x m then x :: insert_sorted less m l' else m :: l
  end.

Definition insertion_sort (less : Media -> Media -> bool) (l : list Media) : list Media :=
  foldr (insert_sorted less) [] l.

End testdata.

(** ** More test data *)
Module fixtures.
Import igshelf.

(** The manifest of testdata/marselester_20201007.zip (captions cut). *)
Definition manifest : archive.nomenclature :=
  archive.mkNomenclature
    [archive.mkRaw "Still jumping" (time.Date 2020 10 7 15 55 33)
       "videos/202010/8c996aa535f0f7a322d4dbaef9cfd266.mp4"]
    [archive.mkRaw "Starting another two-wheeled hobby." (time.Date 2020 6 21 1 12 14)
       "photos/202006/d8612ffa060b392077322ccf2e953f35.jpg"].

Definition archive_20201007 : archive.MediaService :=
  archive.mkService {[ "media.json" := archive.Decodes manifest ]}.

(** The files of an archive: the manifest, the video, a picture of a kind
    the service does not list, and the photo twice. *)
Definition files : list archive_files.File :=
  [archive_files.mkFile "media.json" (archive_files.Data "{}");
   archive_files.mkFile "videos/202010/8c996aa535f0f7a322d4dbaef9cfd266.mp4"
     (archive_files.Data "mp4 bytes");
   archive_files.mkFile "photos/202006/cover.png" (archive_files.Data "png bytes");
   archive_files.mkFile "photos/202006/d8612ffa060b392077322ccf2e953f35.jpg"
     (archive_files.Data "old jpg bytes");
   archive_files.mkFile "photos/202006/d8612ffa060b392077322ccf2e953f35.jpg"
     (archive_files.Data "jpg bytes")].

(** A media located at [path]. *)
Definition located (path : string) : Media :=
  mkMedia "id" MediaTypeImage "" path "" "file.jpg" "" "" time.zero [].

(** A server of media files: the video answers, its cover does not. *)
Definition get_without_cover (c : Context) (url : string) : instagram_files.reply :=
  if String.eqb url (Location testdata.video) then instagram_files.Body "mp4 bytes"
  else instagram_files.DoError "connection refused".

(** A codec for the empty timeline only, standing for encoding/json. *)
Definition Marshal_empty (tl : list Media) : error + string :=
  match tl with
  | [] => inr "null"
  | _ :: _ => inl "unsupported"
  end.

Definition Unmarshal_empty (b : string) : error + list Media :=
  if String.eqb b "null" then inr [] else inl "unexpected end of JSON input".

(** A decoder for two contents only, standing for encoding/json: a file of
    length zero gives [io.EOF], the object without fields a manifest that
    lists nothing. *)
Definition Decode_manifest (content : string) : error + archive.nomenclature :=
  if String.eqb content "" then inl "EOF"
  else if String.eqb content "{}" then inr (archive.mkNomenclature [] [])
  else inl "invalid character".


End fixtures.

(** * Properties *)

(** ** The archive iterator *)
Section ArchiveFacts.
Import igshelf archive grouping.

Lemma same_post_loop_test m x :
  negb (time.Equal (TakenAt m) (TakenAt x)) || negb (String.eqb (Caption m) (Caption x))
  = negb (same_post m x).
Proof. unfold same_post. by rewrite negb_andb. Qed.

Lemma followers_remainder m l : (followers m l ++ remainder m l)%list = l.
Proof.
  induction l as [|x l IH]; simpl; [done|].
  destruct (same_post m x); simpl; [by rewrite IH | done].
Qed.

Lemma remainder_length m l : (length (remainder m l) <= length l)%nat.
Proof.
  induction l as [|x l IH]; simpl; [lia|].
  destruct (same_post m x); simpl; lia.
Qed.

Lemma followers_same_post m l : Forall (fun x => same_post m x = true) (followers m l).
Proof.
  induction l as [|x l IH]; simpl; [constructor|].
  destruct (same_post m x) eqn:E; by constructor.
Qed.

Lemma remainder_head m l x l' : remainder m l = x :: l' -> same_post m x = false.
Proof.
  induction l as [|y l IH]; simpl; [done|].
  destruct (same_post m y) eqn:E; [done|]. by intros [= -> _].
Qed.

(** The loop of [Next] stops at the last follower. *)
Lemma scan_followers m l i offset :
  scan m l i offset =
    match followers m l with
    | [] => offset
    | _ :: _ => (i + length (followers m l) - 1)%nat
    end.
Proof.
  revert i offset. induction l as [|x l IH]; intros i offset; simpl; [done|].
  rewrite same_post_loop_test. destruct (same_post m x); simpl; [|done].
  rewrite IH. destruct (followers m l); simpl; lia.
Qed.

Lemma runs_members tl : flat_map members (runs tl) = tl.
Proof.
  funelim (runs tl); simp runs; [done|].
  simpl. rewrite H. by rewrite followers_remainder.
Qed.

Lemma runs_same_post tl :
  Forall (fun r : run => Forall (fun x => same_post r.1 x = true) r.2) (runs tl).
Proof.
  funelim (runs tl); simp runs; constructor; [|done].
  apply followers_same_post.
Qed.

Lemma runs_maximal tl k (r r' : run) :
  runs tl !! k = Some r -> runs tl !! S k = Some r' -> same_post r.1 r'.1 = false.
Proof.
  revert k. funelim (runs tl); simp runs; intros k; [done|].
  destruct k as [|k]; simpl.
  - intros [= <-]. simpl. destruct (remainder m l) as [|x l'] eqn:E; simp runs; [done|].
    simpl. intros [= <-]. simpl. by eapply remainder_head.
  - apply H.
Qed.

(** A call of [Next] on a live iterator that stands in front of [m :: l]. *)
Lemma Next_run c cur p pre m l :
  let it := mkIter None c p cur (pre ++ m :: l) in
  ctx_Err c = None -> shifted it = length pre -> 
  Next it = (true, mkIter None c (length pre)
                     (Some (item_of_run (m, followers m l))) (pre ++ m :: l)).
Proof.
  intros it Hc Hs. unfold Next. fold it. simpl. rewrite Hc. simpl.
  rewrite Hs. rewrite lookup_app_r by lia. rewrite Nat.sub_diag. simpl.
  rewrite (drop_app_length' pre (m :: l) (length pre)) by done.
  replace (drop (S (length pre)) (pre ++ m :: l)) with l.
  2:{ change (S (length pre)) with (1 + length pre)%nat. rewrite Nat.add_comm.
      rewrite <- drop_drop. rewrite drop_app_length. done. }
  rewrite scan_followers. unfold item_of_run. simpl.
  pose proof (followers_remainder m l) as Hfr.
  destruct (followers m l) as [|f fs] eqn:Ef.
  - case_decide; [lia|done].
  - case_decide; [|simpl in *; lia].
    do 3 f_equal. unfold album, members. simpl. f_equal.
    match goal with
    | |- take ?n _ = _ => replace n with (S (S (length fs))) by (simpl; lia)
    end.
    rewrite <- Hfr. simpl. f_equal. f_equal. by rewrite take_app_length.
Qed.

Lemma shifted_after_run e c p m fl tl :
  Children m = [] ->
  shifted (mkIter e c p (Some (item_of_run (m, fl))) tl) = (p + S (length fl))%nat.
Proof.
  intros Hm. unfold shifted, item_of_run. simpl. destruct fl as [|f fs]; simpl.
  - rewrite Hm. simpl. lia.
  - lia.
Qed.

Lemma shifted_grows e c p cur tl :
  (p <= shifted (mkIter e c p cur tl))%nat.
Proof.
  unfold shifted. simpl. destruct cur as [m|]; [|lia]. case_decide; lia.
Qed.

(** A call of [Next] on a live iterator that stands behind the last entry. *)
Lemma Next_end c cur p tl :
  let it := mkIter None c p cur tl in
  ctx_Err c = None -> (length tl <= shifted it)%nat ->
  Next it = (false, mkIter None c (shifted it) cur tl).
Proof.
  intros it Hc Hs. unfold Next. fold it. simpl. rewrite Hc. simpl.
  by rewrite lookup_ge_None_2.
Qed.

(** Draining a live iterator that stands in front of [rest] yields one item
    per run of [rest], and leaves an iterator without error on which [Next]
    fails. *)
Lemma drain_runs c n : forall rest pre cur p fuel,
  (length rest <= n)%nat ->
  ctx_Err c = None -> flat rest ->
  shifted (mkIter None c p cur (pre ++ rest)) = length pre ->
  (length rest < fuel)%nat ->
  exists it', drain fuel (mkIter None c p cur (pre ++ rest))
              = Ok (item_of_run <$> runs rest, it')
    /\ Err it' = None /\ (Next it').1 = false.
Proof.
  induction n as [|n IH]; intros rest pre cur p fuel Hn Hc Hflat Hs Hfuel;
    (destruct fuel as [|fuel]; [lia|]).
  - destruct rest; [|simpl in Hn; lia].
    simp runs. cbn [drain iter_Next archive_iter].
    rewrite Next_end by (try done; rewrite Hs, length_app; simpl; lia).
    eexists. split; [done|]. split; [done|].
    rewrite Next_end; [done..|].
    etrans; [|apply shifted_grows]. rewrite Hs, length_app. simpl. lia.
  - destruct rest as [|m l].
    { apply (IH [] pre cur p (S fuel)); simpl; try done; lia. }
    simp runs. cbn [drain iter_Next archive_iter].
    rewrite Next_run by done. cbn [iter_Media Media_ current].
    inversion Hflat as [|? ? Hm Hl]; subst.
    assert (Hl' : flat (remainder m l)).
    { unfold flat in *. rewrite <- (followers_remainder m l) in Hl.
      by apply Forall_app in Hl as [_ ?]. }
    destruct (IH (remainder m l) (pre ++ m :: followers m l)
                 (Some (item_of_run (m, followers m l))) (length pre) fuel)
      as (it' & Hd & He & Hn'); try done.
    + pose proof (remainder_length m l). simpl in Hn. lia.
    + rewrite <- (assoc_L (++)). simpl. rewrite followers_remainder.
      rewrite shifted_after_run by done. rewrite length_app. simpl. lia.
    + pose proof (remainder_length m l). simpl in Hfuel. lia.
    + rewrite <- (assoc_L (++)) in Hd. simpl in Hd. rewrite followers_remainder in Hd.
      rewrite Hd. exists it'. by rewrite fmap_cons.
Qed.

Lemma after_calls_S {J : Type} `{igshelf.MediaIter J} (n : nat) (it : J) :
  after_calls (S n) it = after_calls n (iter_Next it).2.
Proof. unfold after_calls. by rewrite Nat.iter_succ_r. Qed.

(** The call of [Next] number [k] (from zero) stands at the start of run
    number [k], behind all the members of the runs before it, and yields the
    item of that run. *)
Lemma calls_runs c k : forall rest pre cur p (r : run),
  ctx_Err c = None -> flat rest ->
  shifted (mkIter None c p cur (pre ++ rest)) = length pre ->
  runs rest !! k = Some r ->
  Next (after_calls k (mkIter None c p cur (pre ++ rest)))
  = (true, mkIter None c
             (length pre + length (flat_map members (take k (runs rest))))
             (Some (item_of_run r)) (pre ++ rest)).
Proof.
  induction k as [|k IH]; intros rest pre cur p r Hc Hflat Hs Hr;
    (destruct rest as [|m l]; [by simp runs in Hr|]); simp runs in Hr.
  - cbn in Hr. injection Hr as <-. unfold after_calls, Nat.iter.
    cbn [nat_rect take flat_map length].
    rewrite Next_run by done. by rewrite Nat.add_0_r.
  - cbn [lookup list_lookup] in Hr. rewrite after_calls_S.
    cbn [iter_Next archive_iter]. rewrite Next_run by done. cbn [snd].
    inversion Hflat as [|? ? Hm Hl]; subst.
    assert (Hl' : flat (remainder m l)).
    { unfold flat in *. rewrite <- (followers_remainder m l) in Hl.
      by apply Forall_app in Hl as [_ ?]. }
    pose proof (IH (remainder m l) (pre ++ m :: followers m l)
                  (Some (item_of_run (m, followers m l))) (length pre) r Hc Hl') as IH'.
    rewrite <- (assoc_L (++)) in IH'. cbn [app] in IH'.
    rewrite followers_remainder in IH'.
    rewrite IH'; [|rewrite shifted_after_run by done; rewrite length_app; simpl; lia|done].
    simp runs. cbn [take flat_map members fst snd].
    f_equal. f_equal. rewrite !length_app. unfold members. simpl. lia.
Qed.


End ArchiveFacts.

(** C1. On a flat timeline the archive iterator yields one item per maximal
    contiguous run of entries with the same date and caption. The runs
    cover the timeline in order, the followers of a run all match its first
    entry, and the first entries of two consecutive runs do not match. The
    item of a run is the leaf itself when the run has one entry, and
    otherwise the album whose id is the id of the first entry followed by
    "album", whose caption and date are those of the first entry and whose
    children are the members of the run. The successful call of [Next]
    number [k] leaves the cursor behind all the members of the runs before
    run [k] and yields the item of run [k]; so the loop
    [for iter.Next() { ... iter.Media() }] collects the items of the runs
    in order, after which [Next] fails and [Err] is [nil]. The order of the
    timeline plays no role, so it is not assumed. *)
Theorem archive_next_groups_runs (c : igshelf.Context) (tl : list igshelf.Media) (fuel : nat) :
  igshelf.ctx_Err c = None ->
  grouping.flat tl ->
  (length tl < fuel)%nat ->
  flat_map grouping.members (grouping.runs tl) = tl
  /\ (forall r, r ∈ grouping.runs tl ->
        Forall (fun x => time.Equal (igshelf.TakenAt r.1) (igshelf.TakenAt x) = true
                         /\ igshelf.Caption x = igshelf.Caption r.1) r.2)
  /\ (forall k r r', grouping.runs tl !! k = Some r -> grouping.runs tl !! S k = Some r' ->
        grouping.same_post r.1 r'.1 = false)
  /\ (forall r, grouping.item_of_run r =
        match r.2 with
        | [] => r.1
        | _ :: _ =>
            igshelf.mkMedia (igshelf.ID r.1 +:+ "album") igshelf.MediaTypeAlbum
              (igshelf.Caption r.1) "" "" "" "" "" (igshelf.TakenAt r.1) (r.1 :: r.2)
        end)
  /\ (forall k r, grouping.runs tl !! k = Some r ->
        let after := (archive.Next (igshelf.after_calls k (archive.new_iter c tl))).2 in
        (archive.Next (igshelf.after_calls k (archive.new_iter c tl))).1 = true
        /\ archive.Media_ after = Some (grouping.item_of_run r)
        /\ archive.cursor after
           = length (flat_map grouping.members (take k (grouping.runs tl))))
  /\ exists it',
       igshelf.drain fuel (archive.new_iter c tl)
       = igshelf.Ok (grouping.item_of_run <$> grouping.runs tl, it')
       /\ archive.Err it' = None
       /\ (archive.Next it').1 = false.
Proof.
  intros Hc Hflat Hfuel. split; [apply runs_members|]. split; [|split; [|split; [|split]]].
  - intros r Hr. pose proof (runs_same_post tl) as Hall.
    rewrite Forall_forall in Hall. specialize (Hall r Hr).
    eapply Forall_impl; [exact Hall|]. intros x Hx. simpl in Hx.
    unfold grouping.same_post in Hx. apply andb_prop in Hx as [H1 H2].
    split; [done|]. apply String.eqb_eq in H2. done.
  - apply runs_maximal.
  - intros [m fl]. unfold grouping.item_of_run. simpl. by destruct fl.
  - intros k r Hr. cbn zeta. unfold archive.new_iter.
    pose proof (calls_runs c k tl [] None 0 r Hc Hflat eq_refl Hr) as Hk.
    cbn [app length] in Hk. rewrite Hk. done.
  - apply (drain_runs c (length tl) tl [] None 0 fuel); try done.
Qed.

(** The concrete scenario: [a; b; z] yields the album "aalbum" with the
    children [a; b], then [z]. *)
Lemma archive_next_groups_runs_scenario :
  igshelf.ctx_Err igshelf.Background = None
  /\ grouping.flat testdata.scenario
  /\ (length testdata.scenario < 4)%nat
  /\ exists it',
       igshelf.drain 4 (archive.new_iter igshelf.Background testdata.scenario)
       = igshelf.Ok
           ([igshelf.mkMedia "aalbum" igshelf.MediaTypeAlbum "c" "" "" "" "" "" testdata.T1
               [testdata.a; testdata.b];
             testdata.z], it')
       /\ archive.Err it' = None
       /\ (archive.Next it').1 = false.
Proof.
  assert (H1 : igshelf.ctx_Err igshelf.Background = None) by reflexivity.
  assert (H2 : grouping.flat testdata.scenario) by (repeat constructor).
  assert (H3 : (length testdata.scenario < 4)%nat) by (simpl; lia).
  split; [exact H1|]. split; [exact H2|]. split; [exact H3|].
  destruct (archive_next_groups_runs igshelf.Background testdata.scenario 4 H1 H2 H3)
    as (_ & _ & _ & _ & _ & it' & Hd & He & Hn).
  exists it'. split; [|split; assumption].
  rewrite Hd. reflexivity.
Defined.

(** ** The remote iterator *)
Section InstagramFacts.
Import igshelf instagram paging.

Lemma Next_within f i b :
  (S i < length b)%nat ->
  Next (mkIter f None i b) = (true, mkIter f None (S i) b).
Proof.
  intros Hlt. unfold Next. cbn. case_decide; [lia|done].
Qed.

Lemma Next_refill f i b :
  (length b <= S i)%nat ->
  Next (mkIter f None i b) =
    (negb (bool_decide ((fetch f).1.2 <> None) || bool_decide (length (fetch f).1.1 = 0%nat)),
     mkIter (fetch f).2 (fetch f).1.2 0 (fetch f).1.1).
Proof.
  intros Hle. unfold Next. cbn. case_decide; [|lia].
  destruct (fetch f) as [[b' e] f']. cbn.
  by destruct (bool_decide (e <> None) || bool_decide (length b' = 0%nat)).
Qed.

Lemma fetch_stopped f : after f = Some "" -> fetch f = ([], None, f).
Proof. intros H. unfold fetch. by rewrite bool_decide_eq_true_2. Qed.

Lemma fetch_page f v srv :
  after f <> Some "" -> server f = Page v :: srv ->
  fetch f = (item <$> Batch v, None, mkFetcher (Some (After v)) srv).
Proof. intros H Hs. unfold fetch. rewrite bool_decide_eq_false_2 by done. by rewrite Hs. Qed.

Lemma fetch_failure f e srv :
  after f <> Some "" -> server f = Failure e :: srv ->
  fetch f = ([], Some e, mkFetcher (after f) srv).
Proof. intros H Hs. unfold fetch. rewrite bool_decide_eq_false_2 by done. by rewrite Hs. Qed.

Lemma fetch_nothing f :
  after f <> Some "" -> server f = [] -> fetch f = ([], Some no_response, f).
Proof. intros H Hs. unfold fetch. rewrite bool_decide_eq_false_2 by done. by rewrite Hs. Qed.

Lemma to_come_stopped f : after f = Some "" -> to_come f = ([], Exhausted).
Proof. intros H. unfold to_come. by rewrite bool_decide_eq_true_2. Qed.

Lemma to_come_initial srv : to_come (mkFetcher None srv) = collected srv.
Proof. unfold to_come. by rewrite bool_decide_eq_false_2. Qed.

Lemma to_come_after_page v srv :
  to_come (mkFetcher (Some (After v)) srv)
  = if String.eqb (After v) "" then ([], Exhausted) else collected srv.
Proof.
  unfold to_come. cbn. destruct (String.eqb_spec (After v) "") as [->|Hne].
  - by rewrite bool_decide_eq_true_2.
  - rewrite bool_decide_eq_false_2; [done|]. by intros [= ?].
Qed.

Lemma to_come_empty_page f v srv :
  after f <> Some "" -> server f = Page v :: srv -> Batch v = [] ->
  to_come f = ([], if String.eqb (After v) "" then Exhausted else EmptyPage).
Proof.
  intros H Hs Hb. unfold to_come. rewrite bool_decide_eq_false_2 by done.
  rewrite Hs. cbn. by rewrite Hb.
Qed.

Lemma to_come_page f v srv :
  after f <> Some "" -> server f = Page v :: srv -> Batch v <> [] ->
  to_come f = ((item <$> Batch v) ++ (to_come (mkFetcher (Some (After v)) srv)).1,
               (to_come (mkFetcher (Some (After v)) srv)).2).
Proof.
  intros H Hs Hb. rewrite to_come_after_page. unfold to_come.
  rewrite bool_decide_eq_false_2 by done. rewrite Hs. cbn.
  by destruct (Batch v).
Qed.

Lemma to_come_failure f e srv :
  after f <> Some "" -> server f = Failure e :: srv -> to_come f = ([], Faulted e).
Proof.
  intros H Hs. unfold to_come. rewrite bool_decide_eq_false_2 by done. by rewrite Hs.
Qed.

Lemma to_come_nothing f :
  after f <> Some "" -> server f = [] -> to_come f = ([], Faulted no_response).
Proof.
  intros H Hs. unfold to_come. rewrite bool_decide_eq_false_2 by done. by rewrite Hs.
Qed.

(** Draining an iterator without error that stands on entry [i] of its
    batch [b]: the rest of the batch, then what the responses still hold. *)
Lemma drain_collected fuel : forall f i b,
  (length (drop (S i) b ++ (to_come f).1) < fuel)%nat ->
  exists it',
    drain fuel (mkIter f None i b) = Ok (drop (S i) b ++ (to_come f).1, it')
    /\ match (to_come f).2 with
       | Exhausted => Err it' = None /\ (Next it').1 = false
       | EmptyPage => Err it' = None
       | Faulted e => Err it' = Some e /\ (Next it').1 = false
       end.
Proof.
  induction fuel as [|fuel IH]; intros f i b Hfuel; [lia|].
  cbn [drain iter_Next iter_Media instagram_iter].
  destruct (decide (S i < length b)%nat) as [Hlt|Hge].
  - rewrite Next_within by done.
    destruct (lookup_lt_is_Some_2 b (S i) Hlt) as [x Hx].
    unfold Media_. cbn [batch cursor]. rewrite Hx.
    rewrite (drop_S b x (S i) Hx) in *.
    destruct (IH f (S i) b) as (it' & Hd & Hfin); [simpl in *; lia|].
    rewrite Hd. by exists it'.
  - rewrite Next_refill by lia. rewrite drop_ge in * by lia. cbn [app] in *.
    destruct (decide (after f = Some "")) as [Hstop|Hgo].
    { rewrite fetch_stopped, to_come_stopped by done. cbn.
      eexists. split; [done|]. split; [done|].
      rewrite Next_refill by (cbn; lia). by rewrite fetch_stopped. }
    destruct (server f) as [|[v|e] srv] eqn:Hs.
    + rewrite fetch_nothing, to_come_nothing by done. cbn. eexists. by repeat split.
    + rewrite (fetch_page f v srv) by done. cbn [fst snd].
      destruct (Batch v) as [|r rs] eqn:Hb.
      * rewrite (to_come_empty_page f v srv) by done. cbn.
        eexists. split; [done|].
        destruct (String.eqb_spec (After v) "") as [Hv|Hv]; [|done].
        split; [done|]. rewrite Next_refill by (cbn; lia).
        rewrite fetch_stopped; [done|]. cbn. by rewrite Hv.
      * rewrite (to_come_page f v srv) in * by (done || by rewrite Hb).
        rewrite Hb in *. cbn [fmap list_fmap length bool_decide negb orb] in *.
        rewrite bool_decide_eq_false_2 by (intros Hnn; by apply Hnn).
        rewrite bool_decide_eq_false_2 by lia. cbn [negb orb].
        unfold Media_. cbn [batch cursor lookup list_lookup].
        destruct (IH (mkFetcher (Some (After v)) srv) 0%nat (item r :: (item <$> rs)))
          as (it' & Hd & Hfin).
        { cbn in Hfuel. cbn. rewrite drop_0. lia. }
        rewrite Hd. cbn. rewrite drop_0. exists it'. split; [done|]. exact Hfin.
    + rewrite (fetch_failure f e srv), (to_come_failure f e srv) by done. cbn.
      eexists. by repeat split.
Qed.


Lemma terminated_nonempty_split pages :
  terminated pages -> inner_pages_nonempty pages ->
  exists init last, pages = init ++ [last] /\ After last = ""
    /\ Forall (fun p => After p <> "" /\ Batch p <> []) init.
Proof.
  intros (init & last & -> & Hl & Ha) (init' & last' & Heq & Hb).
  apply app_inj_tail in Heq as [<- <-]. exists init, last. split; [done|]. split; [done|].
  rewrite Forall_forall in *. intros p Hp. split; [by apply Ha | by apply Hb].
Qed.

Lemma collected_terminated init last :
  After last = "" ->
  Forall (fun p => After p <> "" /\ Batch p <> []) init ->
  collected (Page <$> (init ++ [last]))
  = (flat_map (fun p => item <$> Batch p) (init ++ [last]), Exhausted).
Proof.
  intros Hlast. induction 1 as [|p init [Hp1 Hp2] _ IH]; cbn.
  - rewrite Hlast. cbn. rewrite app_nil_r. destruct (Batch last); by cbn.
  - destruct (Batch p) as [|r rs] eqn:Hb; [done|].
    destruct (String.eqb_spec (After p) ""); [done|].
    rewrite IH. by cbn.
Qed.

Lemma flat_map_items_length pages :
  length (flat_map (fun p => item <$> Batch p) pages) = total pages.
Proof.
  unfold total. induction pages as [|p pages IH]; cbn; [done|].
  rewrite length_app, length_fmap, IH. done.
Qed.

Lemma collected_items srv : Forall (fun m => exists raw, m = item raw) (collected srv).1.
Proof.
  induction srv as [|[v|e] srv IH]; cbn; try constructor.
  destruct (Batch v) as [|r rs]; cbn; [constructor|].
  constructor; [by eexists|]. apply Forall_app. split.
  - apply Forall_fmap. apply Forall_true. intros x. by eexists.
  - destruct (String.eqb (After v) ""); [constructor|done].
Qed.

End InstagramFacts.

(** C2, as the code has it. For a finite sequence of pages terminated by a
    page whose cursor is empty, and in which no page before the last is
    empty, [Next] returns [true] once per item, in page order, that is
    [sum(len(page))] times, and then returns [false] with [Err] returning
    [nil]. *)
Theorem remote_next_once_per_item (pages : list instagram.mediaListResp)
    (c : igshelf.Context) (fuel : nat) :
  paging.terminated pages ->
  paging.inner_pages_nonempty pages ->
  (paging.total pages < fuel)%nat ->
  exists out it',
    igshelf.drain fuel (instagram.List (instagram.Page <$> pages) c) = igshelf.Ok (out, it')
    /\ out = flat_map (fun p => instagram.item <$> instagram.Batch p) pages
    /\ length out = paging.total pages
    /\ instagram.Err it' = None
    /\ (instagram.Next it').1 = false.
Proof.
  intros Ht Hn Hfuel.
  destruct (terminated_nonempty_split pages Ht Hn) as (init & last & -> & Hl & Hall).
  pose proof (collected_terminated init last Hl Hall) as Hc.
  destruct (drain_collected fuel (instagram.mkFetcher None (instagram.Page <$> (init ++ [last])))
              0 []) as (it' & Hd & Hfin).
  { rewrite to_come_initial, Hc. cbn [fst drop app].
    rewrite flat_map_items_length. done. }
  rewrite to_come_initial, Hc in Hd, Hfin. cbn [fst snd drop app] in Hd, Hfin.
  destruct Hfin as [He Hnx].
  eexists _, it'. split; [exact Hd|]. split; [done|].
  split; [apply flat_map_items_length|]. done.
Qed.

(** Two pages of two and one media give three items. *)
Lemma remote_next_once_per_item_pages_2_1 :
  paging.terminated testdata.pages_2_1
  /\ paging.inner_pages_nonempty testdata.pages_2_1
  /\ (paging.total testdata.pages_2_1 < 4)%nat
  /\ exists out it',
       igshelf.drain 4 (instagram.List (instagram.Page <$> testdata.pages_2_1) igshelf.Background)
       = igshelf.Ok (out, it')
       /\ length out = 3%nat
       /\ instagram.Err it' = None
       /\ (instagram.Next it').1 = false.
Proof.
  assert (H1 : paging.terminated testdata.pages_2_1).
  { eexists [_], _. split; [reflexivity|]. split; [reflexivity|].
    constructor; [discriminate|constructor]. }
  assert (H2 : paging.inner_pages_nonempty testdata.pages_2_1).
  { eexists [_], _. split; [reflexivity|]. constructor; [discriminate|constructor]. }
  assert (H3 : (paging.total testdata.pages_2_1 < 4)%nat) by (cbn; lia).
  split; [exact H1|]. split; [exact H2|]. split; [exact H3|].
  destruct (remote_next_once_per_item testdata.pages_2_1 igshelf.Background 4 H1 H2 H3)
    as (out & it' & Hd & _ & Hlen & He & Hn).
  exists out, it'. split; [exact Hd|]. split; [exact Hlen|]. split; [exact He|exact Hn].
Defined.

(** C2 fails as stated: the pages [pages_with_gap] are terminated by a page
    with an empty cursor and hold one item, but the first call of [Next]
    already returns [false], because the first page is empty. *)
Lemma remote_empty_page_ends_iteration :
  paging.terminated testdata.pages_with_gap
  /\ paging.total testdata.pages_with_gap = 1%nat
  /\ (instagram.Next
        (instagram.List (instagram.Page <$> testdata.pages_with_gap) igshelf.Background)).1
     = false
  /\ ~ (exists out it',
          igshelf.drain 2
            (instagram.List (instagram.Page <$> testdata.pages_with_gap) igshelf.Background)
          = igshelf.Ok (out, it')
          /\ length out = paging.total testdata.pages_with_gap).
Proof.
  split.
  { eexists [_], _. split; [reflexivity|]. split; [reflexivity|].
    constructor; [discriminate|constructor]. }
  split; [reflexivity|]. split; [reflexivity|].
  intros (out & it' & Hd & Hlen). cbn in Hd. injection Hd as <- _. discriminate Hlen.
Qed.
(** ** The files of an archive *)
Section ArchiveFiles.
Import igshelf.

(** The map [NewService] builds, read at [name]. *)
Lemma toc_fold_unlisted name files : forall acc : gmap string archive_files.File,
  archive_files.listed name = false ->
  foldl (fun toc f => if archive_files.listed (archive_files.Name f)
                      then <[archive_files.Name f := f]> toc else toc) acc files !! name
  = acc !! name.
Proof.
  induction files as [|f files IH]; intros acc Hl; [done|]. cbn [foldl].
  rewrite IH by done. destruct (archive_files.listed (archive_files.Name f)) eqn:Hf; [|done].
  apply lookup_insert_ne. intros Heq. congruence.
Qed.

Lemma toc_fold_absent name files : forall acc : gmap string archive_files.File,
  Forall (fun f => archive_files.Name f <> name) files ->
  foldl (fun toc f => if archive_files.listed (archive_files.Name f)
                      then <[archive_files.Name f := f]> toc else toc) acc files !! name
  = acc !! name.
Proof.
  induction files as [|f files IH]; intros acc Hall; [done|]. cbn [foldl].
  apply Forall_cons in Hall as [Hf Hall]. rewrite IH by done.
  destruct (archive_files.listed (archive_files.Name f)); [|done].
  by apply lookup_insert_ne.
Qed.

Lemma toc_fold_last name pre f post (acc : gmap string archive_files.File) :
  archive_files.Name f = name -> archive_files.listed name = true ->
  Forall (fun g => archive_files.Name g <> name) post ->
  foldl (fun toc f => if archive_files.listed (archive_files.Name f)
                      then <[archive_files.Name f := f]> toc else toc) acc
    (pre ++ f :: post) !! name
  = Some f.
Proof.
  intros Hf Hl Hpost. rewrite foldl_app. cbn [foldl].
  rewrite toc_fold_absent by done. rewrite Hf, Hl. apply lookup_insert_eq.
Qed.

(** What [List] observes of the manifest of a service built over the files
    of an archive. *)
Lemma service_manifest Decode (toc : gmap string archive_files.File) :
  archive.toc (archive_files.service Decode toc) !! archive.tocFilename
  = archive_files.observe Decode <$> toc !! archive.tocFilename.
Proof. unfold archive_files.service. cbn [archive.toc]. apply lookup_fmap. Qed.

(** [List] by the state of the manifest. *)
Lemma List_by_manifest sort_Slice (s : archive.MediaService) (c : Context) :
  let it := archive.List sort_Slice s c in
  match archive.toc s !! archive.tocFilename with
  | None =>
      archive.Err it = Some "media.json not found in archive"
      /\ (archive.Next it).1 = false
  | Some (archive.OpenFails e) =>
      archive.Err it = Some (wrap "failed to open archived media.json" e)
      /\ (archive.Next it).1 = false
  | Some (archive.DecodeFails e) =>
      archive.Err it = Some (wrap "failed to unmarshal archived media.json" e)
      /\ (archive.Next it).1 = false
  | Some (archive.Decodes nom) =>
      archive.Err it = None
      /\ (archive.Photos nom = [] -> archive.Videos nom = [] ->
          sort_Slice archive.newer [] = [] ->
          (archive.Next it).1 = false /\ archive.Err (archive.Next it).2 = None)
  end.
Proof.
  intros it. unfold it, archive.List.
  destruct (archive.toc s !! archive.tocFilename) as [[e|e|nom]|]; cbn; try done.
  split; [done|]. intros -> -> Hs. cbn. rewrite Hs.
  unfold archive.Next. cbn. by case_bool_decide.
Qed.

End ArchiveFiles.


(** ** The iterator protocol: errors, cancellation, manifests *)
Section ProtocolFacts.
Import igshelf.

Lemma archive_Next_faulted (it : archive.MediaIter) :
  archive.Err it <> None -> archive.Next it = (false, it).
Proof.
  intros He. unfold archive.Next. unfold archive.Err in He.
  by rewrite bool_decide_eq_true_2.
Qed.

Lemma archive_Next_canceled (it : archive.MediaIter) :
  ctx_Err (archive.ctx it) <> None -> archive.Next it = (false, it).
Proof.
  intros Hc. unfold archive.Next. rewrite (bool_decide_eq_true_2 _ Hc).
  by rewrite orb_true_r.
Qed.

Lemma instagram_Next_faulted (mi : instagram.MediaIter) :
  instagram.Err mi <> None -> instagram.Next mi = (false, mi).
Proof.
  intros He. unfold instagram.Next. unfold instagram.Err in He.
  by rewrite bool_decide_eq_true_2.
Qed.

(** An iterator on which [Next] changes nothing stays as it is. *)
Lemma after_calls_fixed {I : Type} `{MediaIter I} (it : I) (n : nat) :
  iter_Next it = (false, it) -> after_calls n it = it.
Proof.
  intros Hfix. unfold after_calls. induction n as [|n IH]; simpl; [done|].
  rewrite IH. by rewrite Hfix.
Qed.

(** Whatever order [sort.Slice] leaves, the timeline [List] builds is made
    of the entries of the manifest, turned into leaves. *)
Lemma archive_List_archived
    (sort_Slice : (Media -> Media -> bool) -> list Media -> list Media)
    (s : archive.MediaService) (c : Context) :
  (forall less l, Permutation (sort_Slice less l) l) ->
  Forall grouping.archived (archive.timeline (archive.List sort_Slice s c)).
Proof.
  intros Hperm. unfold archive.List.
  destruct (archive.toc s !! archive.tocFilename) as [[e|e|nom]|]; cbn; try constructor.
  rewrite (Hperm _ _). apply Forall_app. split; apply Forall_fmap, Forall_true.
  - intros raw. unfold grouping.archived. cbn. auto.
  - intros raw. unfold grouping.archived. cbn. auto.
Qed.

Lemma archived_flat tl : Forall grouping.archived tl -> grouping.flat tl.
Proof. intros Ha. eapply Forall_impl; [exact Ha|]. by intros m (_ & Hc & _). Qed.

End ProtocolFacts.

(** C6. Once the error of an iterator is set, every later call of [Next]
    returns [false] and the error stays: whatever the number [n] of calls
    made in between, for the archive iterator and for the remote one. *)
Theorem iterator_error_is_sticky (n : nat) :
  (forall it : archive.MediaIter,
      archive.Err it <> None ->
      (archive.Next (igshelf.after_calls n it)).1 = false
      /\ archive.Err (igshelf.after_calls n it) = archive.Err it)
  /\ (forall mi : instagram.MediaIter,
      instagram.Err mi <> None ->
      (instagram.Next (igshelf.after_calls n mi)).1 = false
      /\ instagram.Err (igshelf.after_calls n mi) = instagram.Err mi).
Proof.
  split.
  - intros it He. rewrite after_calls_fixed by (by apply archive_Next_faulted).
    by rewrite archive_Next_faulted.
  - intros mi He. rewrite after_calls_fixed by (by apply instagram_Next_faulted).
    by rewrite instagram_Next_faulted.
Qed.

(** An archive without manifest and a request that fails: three calls
    later [Next] still returns [false]. *)
Lemma iterator_error_is_sticky_examples :
  (archive.Next (igshelf.after_calls 3
     (archive.List testdata.insertion_sort testdata.archive_without_manifest
        igshelf.Background))).1 = false
  /\ (instagram.Next (igshelf.after_calls 3
        (instagram.Next (instagram.List [instagram.Failure "boom"; instagram.Page
           (instagram.mkPage [testdata.api_album] "")] igshelf.Background)).2)).1 = false.
Proof.
  destruct (iterator_error_is_sticky 3) as [Ha Hi]. split.
  - apply Ha. discriminate.
  - apply Hi. discriminate.
Defined.

(** C10. After the context of an archive iterator without error is
    canceled, every call of [Next] returns [false] and [Err] still returns
    [nil]; an iterator over a timeline that is exhausted, with a live
    context, shows the same two results. *)
Theorem archive_cancel_looks_like_exhaustion (it : archive.MediaIter) (n : nat) :
  archive.Err it = None ->
  let canceled := igshelf.after_calls n (archive.cancel it) in
  let exhausted := igshelf.after_calls n (archive.new_iter igshelf.Background []) in
  (archive.Next canceled).1 = false
  /\ archive.Err (archive.Next canceled).2 = None
  /\ (archive.Next exhausted).1 = false
  /\ archive.Err (archive.Next exhausted).2 = None.
Proof.
  intros He canceled exhausted.
  assert (Hfix : archive.Next (archive.cancel it) = (false, archive.cancel it)).
  { by apply archive_Next_canceled. }
  unfold canceled. rewrite after_calls_fixed by exact Hfix. rewrite Hfix.
  split; [done|]. split; [done|].
  assert (Hex : archive.Next (archive.new_iter igshelf.Background [])
                = (false, archive.new_iter igshelf.Background [])) by reflexivity.
  unfold exhausted. rewrite after_calls_fixed by exact Hex. by rewrite Hex.
Qed.

(** The iterator over the scenario, canceled after its first item. *)
Lemma archive_cancel_looks_like_exhaustion_scenario :
  let it := (archive.Next (archive.new_iter igshelf.Background testdata.scenario)).2 in
  archive.Err it = None
  /\ (archive.Next it).1 = true
  /\ (archive.Next (igshelf.after_calls 2 (archive.cancel it))).1 = false
  /\ archive.Err (archive.Next (igshelf.after_calls 2 (archive.cancel it))).2 = None.
Proof.
  intros it. split; [reflexivity|]. split; [reflexivity|].
  destruct (archive_cancel_looks_like_exhaustion it 2 eq_refl) as (H1 & H2 & _).
  split; [exact H1|exact H2].
Defined.

(** C8, as the code has it, over the files of an archive. [List] yields a
    faulted iterator ([Err] not [nil], [Next] false) whenever no file of the
    archive is named media.json, or the last file of that name cannot be
    opened, cannot be read, or has a content the JSON decoder rejects; the
    latter is the case of a manifest of length zero whenever the decoder
    rejects the empty input (encoding/json does, with [io.EOF]). A manifest
    that decodes is never a fault; when it lists no photo and no video (and
    sorting nothing gives nothing) the iteration is an empty success:
    [Next] is false and [Err] is [nil]. *)
Theorem archive_list_faults_without_manifest
    (sort_Slice : (igshelf.Media -> igshelf.Media -> bool) -> list igshelf.Media
                  -> list igshelf.Media)
    (Decode : string -> error + archive.nomenclature)
    (files : list archive_files.File) (toc : gmap string archive_files.File)
    (c : igshelf.Context) :
  archive_files.NewService (inr files) = inr toc ->
  let it := archive.List sort_Slice (archive_files.service Decode toc) c in
  let faulted e := archive.Err it = Some e /\ (archive.Next it).1 = false in
  (Forall (fun f => archive_files.Name f <> archive.tocFilename) files ->
   faulted "media.json not found in archive")
  /\ (forall pre f post,
        files = pre ++ f :: post ->
        archive_files.Name f = archive.tocFilename ->
        Forall (fun g => archive_files.Name g <> archive.tocFilename) post ->
        match archive_files.read f with
        | archive_files.OpenError e =>
            faulted (wrap "failed to open archived media.json" e)
        | archive_files.ReadError e =>
            faulted (wrap "failed to unmarshal archived media.json" e)
        | archive_files.Data content =>
            match Decode content with
            | inl e => faulted (wrap "failed to unmarshal archived media.json" e)
            | inr nom =>
                archive.Err it = None
                /\ (archive.Photos nom = [] -> archive.Videos nom = [] ->
                    sort_Slice archive.newer [] = [] ->
                    (archive.Next it).1 = false /\ archive.Err (archive.Next it).2 = None)
            end
        end)
  /\ (forall pre f post e,
        files = pre ++ f :: post ->
        archive_files.Name f = archive.tocFilename ->
        Forall (fun g => archive_files.Name g <> archive.tocFilename) post ->
        archive_files.read f = archive_files.Data "" ->
        Decode "" = inl e ->
        faulted (wrap "failed to unmarshal archived media.json" e)).
Proof.
  intros [= <-] it faulted.
  pose proof (List_by_manifest sort_Slice
                (archive_files.service Decode
                   (foldl (fun toc f => if archive_files.listed (archive_files.Name f)
                                        then <[archive_files.Name f := f]> toc else toc)
                      ∅ files)) c) as HL.
  cbv zeta in HL. rewrite service_manifest in HL. fold it in HL.
  assert (Hlast : forall pre f post,
            files = pre ++ f :: post ->
            archive_files.Name f = archive.tocFilename ->
            Forall (fun g => archive_files.Name g <> archive.tocFilename) post ->
            match archive_files.observe Decode f with
            | archive.OpenFails e =>
                archive.Err it = Some (wrap "failed to open archived media.json" e)
                /\ (archive.Next it).1 = false
            | archive.DecodeFails e =>
                archive.Err it = Some (wrap "failed to unmarshal archived media.json" e)
                /\ (archive.Next it).1 = false
            | archive.Decodes nom =>
                archive.Err it = None
                /\ (archive.Photos nom = [] -> archive.Videos nom = [] ->
                    sort_Slice archive.newer [] = [] ->
                    (archive.Next it).1 = false /\ archive.Err (archive.Next it).2 = None)
            end).
  { intros pre f post Hfiles Hf Hpost. rewrite Hfiles in HL.
    by rewrite (toc_fold_last archive.tocFilename pre f post) in HL. }
  split; [|split].
  - intros Hall. by rewrite toc_fold_absent, lookup_empty in HL.
  - intros pre f post Hfiles Hf Hpost. specialize (Hlast pre f post Hfiles Hf Hpost).
    unfold archive_files.observe in Hlast.
    destruct (archive_files.read f) as [e|e|content]; [done|done|].
    by destruct (Decode content) as [e|nom].
  - intros pre f post e Hfiles Hf Hpost Hr Hd.
    specialize (Hlast pre f post Hfiles Hf Hpost).
    unfold archive_files.observe in Hlast. by rewrite Hr, Hd in Hlast.
Qed.

(** An archive without media.json is a fault, and so is one whose
    media.json has length zero; the archive whose media.json is the object
    without fields is an empty success. *)
Lemma archive_list_faults_without_manifest_examples :
  (let it := archive.List testdata.insertion_sort
               (archive_files.service fixtures.Decode_manifest
                  {[ "videos/202010/8c996aa535f0f7a322d4dbaef9cfd266.mp4"
                     := archive_files.mkFile
                          "videos/202010/8c996aa535f0f7a322d4dbaef9cfd266.mp4"
                          (archive_files.Data "mp4 bytes") ]})
               igshelf.Background in
   archive.Err it = Some "media.json not found in archive" /\ (archive.Next it).1 = false)
  /\ (let it := archive.List testdata.insertion_sort
                  (archive_files.service fixtures.Decode_manifest
                     {[ "media.json" := archive_files.mkFile "media.json"
                                          (archive_files.Data "") ]})
                  igshelf.Background in
      archive.Err it = Some "failed to unmarshal archived media.json: EOF"
      /\ (archive.Next it).1 = false)
  /\ (let it := archive.List testdata.insertion_sort
                  (archive_files.service fixtures.Decode_manifest
                     {[ "media.json" := archive_files.mkFile "media.json"
                                          (archive_files.Data "{}") ]})
                  igshelf.Background in
      archive.Err it = None
      /\ (archive.Next it).1 = false /\ archive.Err (archive.Next it).2 = None).
Proof.
  split; [|split].
  - destruct (archive_list_faults_without_manifest testdata.insertion_sort
                fixtures.Decode_manifest
                [archive_files.mkFile "videos/202010/8c996aa535f0f7a322d4dbaef9cfd266.mp4"
                   (archive_files.Data "mp4 bytes")]
                _ igshelf.Background eq_refl) as (Habsent & _ & _).
    apply Habsent. repeat constructor. discriminate.
  - destruct (archive_list_faults_without_manifest testdata.insertion_sort
                fixtures.Decode_manifest
                [archive_files.mkFile "media.json" (archive_files.Data "")]
                _ igshelf.Background eq_refl) as (_ & _ & Hzero).
    exact (Hzero [] (archive_files.mkFile "media.json" (archive_files.Data "")) [] "EOF"
             eq_refl eq_refl (List.Forall_nil _) eq_refl eq_refl).
  - destruct (archive_list_faults_without_manifest testdata.insertion_sort
                fixtures.Decode_manifest
                [archive_files.mkFile "media.json" (archive_files.Data "{}")]
                _ igshelf.Background eq_refl) as (_ & Hlast & _).
    pose proof (Hlast [] (archive_files.mkFile "media.json" (archive_files.Data "{}")) []
                  eq_refl eq_refl (List.Forall_nil _)) as (Herr & Hnext).
    split; [exact Herr|]. apply Hnext; reflexivity.
Defined.

(** C8 fails as stated: a manifest that lists no photo and no video gives
    an iterator that is not faulted, but an empty success. *)
Lemma archive_empty_manifest_is_no_fault :
  let it := archive.List testdata.insertion_sort testdata.archive_listing_nothing
              igshelf.Background in
  ~ (archive.Err it <> None)
  /\ (archive.Next it).1 = false
  /\ archive.Err (archive.Next it).2 = None.
Proof.
  intros it. split; [|split; reflexivity]. intros H. by apply H.
Qed.

(** ** Albums: thumbnails of children, caption and date *)
Section AlbumFacts.
Import igshelf.

Lemma append_assoc (s t u : string) : (s +:+ t) +:+ u = s +:+ t +:+ u.
Proof.
  induction s as [|a s IH]; [done|].
  change (String a ((s +:+ t) +:+ u) = String a (s +:+ t +:+ u)). by f_equal.
Qed.

Lemma append_nonempty (s t : string) : t <> "" -> s +:+ t <> "".
Proof. intros Ht. destruct s as [|a s]; [done|]. by change (String a (s +:+ t) <> ""). Qed.

(** The thumbnail file name that the [switch] assigns: one for a video,
    none otherwise. *)
Lemma filenames_thumbnail type fname :
  (type = MediaTypeVideo -> (instagram.filenames type fname).2 = fname +:+ "_cover.jpg")
  /\ (type <> MediaTypeVideo -> (instagram.filenames type fname).2 = "").
Proof.
  unfold instagram.filenames. split.
  - intros ->. reflexivity.
  - intros Hne. destruct (_ || _); [done|].
    destruct (String.eqb_spec type MediaTypeVideo); done.
Qed.

Lemma item_of_run_album (r : grouping.run) :
  Children r.1 = [] -> Type_ r.1 <> MediaTypeAlbum ->
  Type_ (grouping.item_of_run r) = MediaTypeAlbum ->
  exists ch, head (Children (grouping.item_of_run r)) = Some ch
    /\ TakenAt (grouping.item_of_run r) = TakenAt ch
    /\ Caption (grouping.item_of_run r) = Caption ch.
Proof.
  destruct r as [m fl]. unfold grouping.item_of_run. simpl. intros Hc Ht.
  destruct fl; simpl; [done|]. intros _. by exists m.
Qed.

Lemma runs_first_in tl (r : grouping.run) : r ∈ grouping.runs tl -> r.1 ∈ tl.
Proof.
  intros Hr. rewrite <- (runs_members tl). apply list_elem_of_In, in_flat_map.
  exists r. split; [by apply list_elem_of_In|]. by left.
Qed.

End AlbumFacts.

(** C7, as the code has it. In every page the remote iterator fetches, a
    top-level item is assigned a thumbnail file name exactly when its type
    is VIDEO, and so is every nested child entry of an album: a child of
    type VIDEO gets the name of its file followed by "_cover.jpg", a child
    of another type gets none. *)
Theorem remote_thumbnail_for_videos (raw : instagram.media) :
  let m := instagram.item raw in
  (igshelf.Type_ m = igshelf.MediaTypeVideo ->
     igshelf.ThumbnailFilename m
     = time.Format_200601_ (igshelf.TakenAt m) +:+ igshelf.ID m +:+ "_cover.jpg"
     /\ igshelf.ThumbnailFilename m <> "")
  /\ (igshelf.Type_ m <> igshelf.MediaTypeVideo -> igshelf.ThumbnailFilename m = "")
  /\ Forall (fun ch =>
       (igshelf.Type_ ch = igshelf.MediaTypeVideo ->
          igshelf.ThumbnailFilename ch
          = time.Format_200601_ (igshelf.TakenAt m) +:+ igshelf.ID ch +:+ "_cover.jpg"
          /\ igshelf.ThumbnailFilename ch <> "")
       /\ (igshelf.Type_ ch <> igshelf.MediaTypeVideo -> igshelf.ThumbnailFilename ch = ""))
       (igshelf.Children m).
Proof.
  intros m. unfold m, instagram.item.
  cbn [igshelf.Type_ igshelf.ThumbnailFilename igshelf.TakenAt igshelf.ID igshelf.Children].
  split; [|split].
  - intros Hv. destruct (filenames_thumbnail (instagram.api_Type raw)
      (time.Format_200601_ (instagram.api_TakenAt raw) +:+ instagram.api_ID raw)) as [H _].
    rewrite (H Hv). split; [by rewrite append_assoc|].
    by apply append_nonempty.
  - intros Hv. by apply filenames_thumbnail.
  - apply Forall_fmap, Forall_true. intros c. unfold compose, instagram.child.
    cbn [igshelf.Type_ igshelf.ThumbnailFilename igshelf.TakenAt igshelf.ID]. split.
    + intros Hv. destruct (filenames_thumbnail (instagram.api_Type c)
        (time.Format_200601_ (instagram.api_TakenAt raw) +:+ instagram.api_ID c)) as [H _].
      rewrite (H Hv). split; [by rewrite append_assoc|].
      by apply append_nonempty.
    + intros Hv. by apply filenames_thumbnail.
Qed.

(** The album of testdata/media_list.json: its child, a video, has the
    thumbnail file name the test expects. *)
Lemma remote_thumbnail_for_videos_media_list :
  exists ch,
    head (igshelf.Children (instagram.item testdata.api_album)) = Some ch
    /\ igshelf.Type_ ch = igshelf.MediaTypeVideo
    /\ igshelf.ThumbnailFilename ch = "202010_17850885734317674_cover.jpg".
Proof.
  destruct (remote_thumbnail_for_videos testdata.api_album) as (_ & _ & H).
  apply (Forall_inv (l := [])) in H. destruct H as [Hv _].
  destruct (Hv eq_refl) as [Heq _].
  eexists. split; [reflexivity|]. split; [reflexivity|exact Heq].
Defined.

(** C7 fails as stated: the page of testdata/media_list.json holds an album
    whose child is a video, and the item the iterator yields for it has a
    child with a thumbnail file name. *)
Lemma remote_child_video_has_thumbnail :
  exists out it',
    igshelf.drain 2
      (instagram.List [instagram.Page (instagram.mkPage [testdata.api_album] "")]
         igshelf.Background)
    = igshelf.Ok (out, it')
    /\ ~ Forall (fun m => Forall (fun ch => igshelf.ThumbnailFilename ch = "")
                            (igshelf.Children m)) out.
Proof.
  eexists _, _. split; [reflexivity|].
  intros H. apply Forall_inv in H. apply Forall_inv in H. discriminate H.
Qed.

(** C9, as the code has it. Every item of type album that the archive
    iterator yields over a flat timeline of images and videos has the date
    and the caption of its first child. Every item the remote iterator
    yields has the caption and the date of the entry of the page it comes
    from, whereas each of its children has an empty caption and the zero
    date. *)
Theorem album_caption_and_date (fuel : nat) (c : igshelf.Context) :
  (forall tl : list igshelf.Media,
      grouping.flat tl ->
      Forall (fun m => igshelf.Type_ m <> igshelf.MediaTypeAlbum) tl ->
      (length tl < fuel)%nat ->
      exists out it',
        igshelf.drain fuel (archive.new_iter c tl) = igshelf.Ok (out, it')
        /\ Forall (fun m =>
             igshelf.Type_ m = igshelf.MediaTypeAlbum ->
             exists ch, head (igshelf.Children m) = Some ch
               /\ igshelf.TakenAt m = igshelf.TakenAt ch
               /\ igshelf.Caption m = igshelf.Caption ch) out)
  /\ (forall srv : list instagram.response,
      (length (paging.collected srv).1 < fuel)%nat ->
      exists out it',
        igshelf.drain fuel (instagram.List srv c) = igshelf.Ok (out, it')
        /\ Forall (fun m =>
             exists raw, m = instagram.item raw
               /\ igshelf.Caption m = instagram.api_Caption raw
               /\ igshelf.TakenAt m = instagram.api_TakenAt raw
               /\ Forall (fun ch => igshelf.Caption ch = ""
                                    /\ igshelf.TakenAt ch = time.zero)
                    (igshelf.Children m)) out).
Proof.
  split.
  - intros tl Hflat Hty Hfuel. destruct (igshelf.ctx_Err c) as [e|] eqn:Hc.
    + destruct fuel as [|fuel]; [lia|]. cbn [igshelf.drain igshelf.iter_Next archive.archive_iter].
      rewrite archive_Next_canceled
        by (unfold archive.new_iter; cbn [archive.ctx]; by rewrite Hc).
      eexists _, _. split; [done|].
      constructor.
    + destruct (drain_runs c (length tl) tl [] None 0 fuel) as (it' & Hd & _); try done.
      eexists _, it'. split; [exact Hd|].
      apply Forall_fmap, Forall_forall. intros r Hr. cbn.
      pose proof (runs_first_in tl r Hr) as Hin.
      unfold grouping.flat in Hflat. rewrite Forall_forall in Hflat, Hty.
      apply item_of_run_album; auto.
  - intros srv Hfuel.
    destruct (drain_collected fuel (instagram.mkFetcher None srv) 0 []) as (it' & Hd & _).
    { by rewrite to_come_initial. }
    rewrite to_come_initial in Hd. cbn [drop app] in Hd.
    eexists _, it'. split; [exact Hd|].
    eapply Forall_impl; [apply collected_items|]. intros m [raw ->]. exists raw.
    split; [done|]. split; [done|]. split; [done|].
    unfold instagram.item. cbn [igshelf.Children]. by apply Forall_fmap, Forall_true.
Qed.

(** The scenario gives the album "aalbum" with the date and caption of [a];
    the album of testdata/media_list.json keeps its caption while its child
    has none. *)
Lemma album_caption_and_date_examples :
  (exists out it',
     igshelf.drain 4 (archive.new_iter igshelf.Background testdata.scenario)
     = igshelf.Ok (out, it')
     /\ Forall (fun m =>
          igshelf.Type_ m = igshelf.MediaTypeAlbum ->
          exists ch, head (igshelf.Children m) = Some ch
            /\ igshelf.TakenAt m = igshelf.TakenAt ch
            /\ igshelf.Caption m = igshelf.Caption ch) out)
  /\ (exists out it',
     igshelf.drain 4
       (instagram.List [instagram.Page (instagram.mkPage [testdata.api_album] "")]
          igshelf.Background)
     = igshelf.Ok (out, it')
     /\ Forall (fun m =>
          exists raw, m = instagram.item raw
            /\ igshelf.Caption m = instagram.api_Caption raw
            /\ igshelf.TakenAt m = instagram.api_TakenAt raw
            /\ Forall (fun ch => igshelf.Caption ch = ""
                                 /\ igshelf.TakenAt ch = time.zero)
                 (igshelf.Children m)) out).
Proof.
  destruct (album_caption_and_date 4 igshelf.Background) as [Ha Hr]. split.
  - apply Ha.
    + repeat constructor.
    + repeat constructor; discriminate.
    + cbn. lia.
  - apply Hr. cbn. lia.
Defined.

(** C9 fails as stated: the album the remote iterator yields for the page
    of testdata/media_list.json has the caption "Still jumping" and the
    date of its post, while its first child has no caption and the zero
    date. *)
Lemma remote_album_differs_from_first_child :
  exists m ch it',
    igshelf.drain 2
      (instagram.List [instagram.Page (instagram.mkPage [testdata.api_album] "")]
         igshelf.Background)
    = igshelf.Ok ([m], it')
    /\ igshelf.Type_ m = igshelf.MediaTypeAlbum
    /\ head (igshelf.Children m) = Some ch
    /\ igshelf.Caption m <> igshelf.Caption ch
    /\ igshelf.TakenAt m <> igshelf.TakenAt ch.
Proof.
  eexists _, _, _. split; [reflexivity|]. split; [reflexivity|]. split; [reflexivity|].
  split; discriminate.
Qed.

(** ** The download service *)
Section DownloaderFacts.
Import igshelf downloader.
Context {I : Type} (s : Service I) (dir : string).

(** [os.Stat] never gives an error that [os.IsExist] accepts: for a file
    that exists its error is [nil]. *)
Lemma IsExist_Stat fs path : os.IsExist (os.Stat fs path) = false.
Proof. unfold os.Stat. by destruct (os.files fs !! path). Qed.

Ltac worker_cases c m fs :=
  unfold worker, os.WriteFile; rewrite ?IsExist_Stat;
  destruct (String.eqb (Filename m) "") eqn:?;
  [|destruct (dl_err (ig_Download s c m)) eqn:?;
    [|destruct (os.faults fs !! filepath.Join dir (Filename m)) eqn:?;
      [|destruct (thumbnail (ig_Download s c m)) eqn:?;
        [cbn [os.faults];
         destruct (os.faults fs !! filepath.Join dir (ThumbnailFilename m)) eqn:?|]]]];
  cbn [fst snd os.faults os.files].

Lemma worker_faults c m fs : os.faults (worker s c dir m fs).1.2 = os.faults fs.
Proof. worker_cases c m fs; done. Qed.

Lemma worker_error_write_failed c m fs :
  (worker s c dir m fs).1.1 <> None <-> write_failed (worker s c dir m fs).2.
Proof.
  unfold write_failed. worker_cases c m fs; (split; [intros Hne|intros (p0 & d0 & e0 & Hin)]);
    try done;
    try (eexists _, _, _; repeat first [apply list_elem_of_here | apply list_elem_of_further]);
    repeat (apply elem_of_cons in Hin as [Hin|Hin]; try discriminate Hin);
    try (by apply elem_of_nil in Hin).
Qed.

(** A failed download is logged and swallowed. *)
Lemma worker_swallows c m fs e :
  Filename m <> "" -> dl_err (ig_Download s c m) = Some e ->
  worker s c dir m fs = (None, fs, [Fetched m (Some e); Logged m e]).
Proof.
  intros Hn Hd. unfold worker. rewrite IsExist_Stat.
  destruct (String.eqb_spec (Filename m) ""); [done|]. by rewrite Hd.
Qed.

Lemma worker_files_elsewhere c m fs p :
  p ∉ written (worker s c dir m fs).2 ->
  os.files (worker s c dir m fs).1.2 !! p = os.files fs !! p.
Proof.
  worker_cases c m fs; cbn; intros Hp; try done;
    rewrite ?lookup_insert_ne; try done; set_solver.
Qed.

Lemma worker_files_written c m fs p :
  p ∈ written (worker s c dir m fs).2 ->
  is_Some (os.files (worker s c dir m fs).1.2 !! p).
Proof.
  worker_cases c m fs; cbn; intros Hp; try (by apply elem_of_nil in Hp).
  - apply list_elem_of_singleton in Hp as ->. rewrite lookup_insert_eq. by eexists.
  - apply elem_of_cons in Hp as [->|Hp].
    + destruct (decide (filepath.Join dir (ThumbnailFilename m)
                        = filepath.Join dir (Filename m))) as [Heq|Hne].
      * rewrite Heq, lookup_insert_eq. by eexists.
      * rewrite lookup_insert_ne, lookup_insert_eq by done. by eexists.
    + apply list_elem_of_singleton in Hp as ->. rewrite lookup_insert_eq. by eexists.
  - apply list_elem_of_singleton in Hp as ->. rewrite lookup_insert_eq. by eexists.
Qed.

Lemma worker_files_kept c m fs p :
  is_Some (os.files fs !! p) -> is_Some (os.files (worker s c dir m fs).1.2 !! p).
Proof.
  intros Hp. destruct (decide (p ∈ written (worker s c dir m fs).2)).
  - by apply worker_files_written.
  - by rewrite worker_files_elsewhere.
Qed.

(** "Zip archive doesn't contain albums": no file name, no work. *)
Lemma worker_unnamed c m fs : Filename m = "" -> worker s c dir m fs = (None, fs, []).
Proof. intros Hn. unfold worker. by rewrite Hn. Qed.

Lemma worker_written_origin c m fs p :
  p ∈ written (worker s c dir m fs).2 ->
  Filename m <> "" /\ dl_err (ig_Download s c m) = None
  /\ (p = filepath.Join dir (Filename m) \/ p = filepath.Join dir (ThumbnailFilename m)).
Proof.
  destruct (decide (Filename m = "")) as [Hn|Hn].
  { rewrite worker_unnamed by done. cbn. intros Hp. by apply elem_of_nil in Hp. }
  worker_cases c m fs; cbn; intros Hp; try (by apply elem_of_nil in Hp);
    (split; [done|]); (split; [done|]).
  - left. by apply list_elem_of_singleton in Hp.
  - apply elem_of_cons in Hp as [->|Hp]; [by left|].
    right. by apply list_elem_of_singleton in Hp.
  - left. by apply list_elem_of_singleton in Hp.
Qed.



(** One step of the copy. *)
Lemma copy_cons parent grace m rest gerr fs :
  copy s parent dir grace (m :: rest) gerr fs =
    match group_ctx parent gerr, grace with
    | Some e, O => (first_error gerr (Some e), fs, [])
    | c, _ =>
        let w := worker s c dir m fs in
        let r := copy s parent dir (if c is Some _ then pred grace else grace) rest
                   (first_error gerr w.1.1) w.1.2 in
        (r.1.1, r.1.2, w.2 ++ r.2)
    end.
Proof.
  cbn [copy]. destruct (group_ctx parent gerr) as [e|]; [destruct grace as [|g]|]; try done.
  all: cbn zeta; destruct (worker _ _ _ _ _) as [[r1 fs1] ev1]; cbn [fst snd];
    by destruct (copy _ _ _ _ _ _ _) as [[g2 fs2] ev2].
Qed.

Lemma write_failed_app ev ev' : write_failed (ev ++ ev') <-> write_failed ev \/ write_failed ev'.
Proof.
  unfold write_failed. split.
  - intros (p & d & e & Hin). apply elem_of_app in Hin as [Hin|Hin]; [left|right]; eauto.
  - intros [(p & d & e & Hin)|(p & d & e & Hin)]; exists p, d, e; apply elem_of_app; auto.
Qed.


Lemma written_app ev ev' : written (ev ++ ev') = written ev ++ written ev'.
Proof. unfold written. apply omap_app. Qed.

Lemma fetched_app ev ev' : fetched (ev ++ ev') = fetched ev ++ fetched ev'.
Proof. unfold fetched. apply omap_app. Qed.




(** An error of the copy comes from the group before, from a failed write,
    or from the context of the caller. *)
Lemma copy_error_origin parent work : forall grace gerr fs,
  (copy s parent dir grace work gerr fs).1.1 <> None ->
  gerr <> None \/ write_failed (copy s parent dir grace work gerr fs).2 \/ parent <> None.
Proof.
  induction work as [|m rest IH]; intros grace gerr fs; [cbn; auto|].
  rewrite copy_cons.
  destruct (group_ctx parent gerr) as [e|] eqn:Hc; [destruct grace as [|g]|]; cbn [fst snd].
  - intros _. destruct parent, gerr; try done; auto.
  - intros Hne. destruct (IH _ _ _ Hne) as [Hg|[Hw|Hp]]; auto.
    + destruct gerr; [auto|]. right. left. apply write_failed_app. left.
      by apply worker_error_write_failed.
    + right. left. apply write_failed_app. auto.
  - intros Hne. destruct (IH _ _ _ Hne) as [Hg|[Hw|Hp]]; auto.
    + destruct gerr; [auto|]. right. left. apply write_failed_app. left.
      by apply worker_error_write_failed.
    + right. left. apply write_failed_app. auto.
Qed.

Lemma copy_files_elsewhere parent work : forall grace gerr fs p,
  p ∉ written (copy s parent dir grace work gerr fs).2 ->
  os.files (copy s parent dir grace work gerr fs).1.2 !! p = os.files fs !! p.
Proof.
  induction work as [|m rest IH]; intros grace gerr fs p; [done|].
  rewrite copy_cons.
  destruct (group_ctx parent gerr) as [e|] eqn:Hc; [destruct grace as [|g]|];
    cbn [fst snd]; try done.
  all: rewrite written_app, not_elem_of_app; intros [Hw Hr];
    rewrite IH by done; by apply worker_files_elsewhere.
Qed.

Lemma copy_files_kept parent work : forall grace gerr fs p,
  is_Some (os.files fs !! p) ->
  is_Some (os.files (copy s parent dir grace work gerr fs).1.2 !! p).
Proof.
  induction work as [|m rest IH]; intros grace gerr fs p Hp; [done|].
  rewrite copy_cons.
  destruct (group_ctx parent gerr) as [e|] eqn:Hc; [destruct grace as [|g]|];
    cbn [fst snd]; try done.
  all: by apply IH, worker_files_kept.
Qed.

Lemma copy_files_written parent work : forall grace gerr fs p,
  p ∈ written (copy s parent dir grace work gerr fs).2 ->
  is_Some (os.files (copy s parent dir grace work gerr fs).1.2 !! p).
Proof.
  induction work as [|m rest IH]; intros grace gerr fs p.
  { cbn. intros Hp. by apply elem_of_nil in Hp. }
  rewrite copy_cons.
  destruct (group_ctx parent gerr) as [e|] eqn:Hc; [destruct grace as [|g]|];
    cbn [fst snd]; try (intros Hp; by apply elem_of_nil in Hp).
  all: rewrite written_app, elem_of_app; intros [Hw|Hr]; [|by apply IH];
    by apply copy_files_kept, worker_files_written.
Qed.










End DownloaderFacts.

Section RunFacts.
Import igshelf downloader.
Context {I : Type} `{MediaIter I} (s : Service I).

(** A run whose listing ends without error, whose repository stores and
    whose pool has room copies the queue. *)
Lemma Download_copies grace fuel c dir fs tl it :
  drain fuel (ig_List s c) = Ok (tl, it) -> iter_Err it = None ->
  db_Store s tl = None -> (0 < maxWorkers s)%Z ->
  Download s grace fuel c dir fs =
    Ok (mkOutcome (copy s c dir grace (queue tl) None fs).1.1
          (copy s c dir grace (queue tl) None fs).1.2
          (Stored tl None :: (copy s c dir grace (queue tl) None fs).2)).
Proof.
  intros Hd He Hs Hw. unfold Download. rewrite Hd, He, Hs.
  case_decide; [lia|]. rewrite bool_decide_eq_false_2 by lia. cbn [andb].
  by destruct (copy s c dir grace (queue tl) None fs) as [[g fs'] ev].
Qed.


Lemma write_failed_Stored tl r ev : write_failed (Stored tl r :: ev) <-> write_failed ev.
Proof.
  unfold write_failed. split; intros (p & d & e & Hin); exists p, d, e.
  - by apply elem_of_cons in Hin as [Hin|Hin].
  - by right.
Qed.

End RunFacts.

(** C3: the code does not do what the claim and its own comment ("Skip
    downloading if the media file already exists") say. [os.Stat] gives
    [nil] for a file that exists and [os.IsExist(nil)] is false, so the
    test never holds. Here the video of the tests is copied into an empty
    directory by a first run that succeeds; the second run, on the
    directory the first one left, finds the file, and still fetches the
    video and writes the file again. *)
Theorem rerun_fetches_and_writes_again :
  let s := testdata.mock_service [testdata.video] testdata.download_all in
  exists first second,
    downloader.Download s 0 2 igshelf.Background "testdata" testdata.empty_disk
    = igshelf.Ok first
    /\ downloader.result first = None
    /\ os.Stat (downloader.disk first) "testdata/17863188140095492.mp4" = None
    /\ downloader.Download s 0 2 igshelf.Background "testdata" (downloader.disk first)
       = igshelf.Ok second
    /\ downloader.fetched (downloader.trace second) = [testdata.video]
    /\ downloader.written (downloader.trace second) = ["testdata/17863188140095492.mp4"].
Proof.
  intros s. eexists _, _. split; [reflexivity|]. split; [reflexivity|].
  split; [reflexivity|]. split; [reflexivity|]. split; reflexivity.
Qed.

(** C4, as the code has it. A run whose listing loop ends and whose pool
    has room returns, in one of three states: the listing failed, and the
    run returns that error having called neither [Store] nor a worker; or
    [Store] failed, and the run returns that error having copied nothing;
    or the full timeline was persisted, and then the run succeeds or returns
    an error of the copy, which comes from a failed write or from the
    context of the caller. *)
Theorem run_ends_in_one_of_three_states {I : Type} `{igshelf.MediaIter I}
    (s : downloader.Service I) (grace fuel : nat) (c : igshelf.Context)
    (dir : string) (fs : os.FS) (tl : list igshelf.Media) (it : I) :
  igshelf.drain fuel (downloader.ig_List s c) = igshelf.Ok (tl, it) ->
  (0 < downloader.maxWorkers s)%Z ->
  exists o,
    downloader.Download s grace fuel c dir fs = igshelf.Ok o
    /\ match igshelf.iter_Err it, downloader.db_Store s tl with
       | Some e, _ =>
           downloader.result o = Some (wrap "failed to fetch the timeline" e)
           /\ downloader.trace o = [] /\ downloader.disk o = fs
           /\ ~ downloader.persisted o
       | None, Some e =>
           downloader.result o = Some (wrap "failed to store the timeline" e)
           /\ downloader.trace o = [downloader.Stored tl (Some e)]
           /\ downloader.disk o = fs
           /\ ~ downloader.persisted o
       | None, None =>
           (exists ev, downloader.trace o = downloader.Stored tl None :: ev)
           /\ downloader.persisted o
           /\ (downloader.result o <> None ->
               downloader.write_failed (downloader.trace o) \/ igshelf.ctx_Err c <> None)
       end.
Proof.
  intros Hd Hw.
  destruct (igshelf.iter_Err it) as [e|] eqn:He;
    [|destruct (downloader.db_Store s tl) as [e|] eqn:Hs].
  - eexists. unfold downloader.Download. rewrite Hd, He. split; [done|]. cbn.
    repeat split; try done. intros [tl' Hin]. by apply elem_of_nil in Hin.
  - eexists. unfold downloader.Download. rewrite Hd, He, Hs. split; [done|]. cbn.
    repeat split; try done. intros [tl' Hin]. cbn in Hin.
    by apply list_elem_of_singleton in Hin.
  - eexists. rewrite (Download_copies s grace fuel c dir fs tl it) by done.
    split; [done|]. cbn [downloader.trace downloader.result]. split; [by eexists|].
    split; [exists tl; by left|]. intros Hne.
    destruct (copy_error_origin s dir c (downloader.queue tl) grace None fs Hne)
      as [Hg|[Hf|Hp]]; [done| |by right].
    left. by apply write_failed_Stored.
Qed.

(** A run over [Y; X] in a directory where the file of [X] cannot be
    written: the third state. *)
Lemma run_ends_in_one_of_three_states_write_fault :
  exists o,
    downloader.Download (testdata.mock_service [testdata.Y; testdata.X] testdata.download_all)
      0 3 igshelf.Background "out" (os.mkFS ∅ {[ "out/x.jpg" := "permission denied" ]})
    = igshelf.Ok o
    /\ downloader.persisted o
    /\ (downloader.result o <> None ->
        downloader.write_failed (downloader.trace o)
        \/ igshelf.ctx_Err igshelf.Background <> None).
Proof.
  assert (Hd : igshelf.drain 3
            (downloader.ig_List
               (testdata.mock_service [testdata.Y; testdata.X] testdata.download_all)
               igshelf.Background)
          = igshelf.Ok ([testdata.Y; testdata.X],
                        mock.mkIter [testdata.Y; testdata.X] None 2 (Some testdata.X)))
    by reflexivity.
  destruct (run_ends_in_one_of_three_states
              (testdata.mock_service [testdata.Y; testdata.X] testdata.download_all)
              0 3 igshelf.Background "out"
              (os.mkFS ∅ {[ "out/x.jpg" := "permission denied" ]})
              _ _ Hd eq_refl) as (o & Ho & _ & Hp & Hr).
  exists o. split; [exact Ho|]. split; [exact Hp|exact Hr].
Defined.

(** C4 fails as stated: in that run the timeline is persisted and the file
    of [Y] is copied, and the run returns an error. *)
Lemma run_fails_after_persisting :
  exists o,
    downloader.Download (testdata.mock_service [testdata.Y; testdata.X] testdata.download_all)
      0 3 igshelf.Background "out" (os.mkFS ∅ {[ "out/x.jpg" := "permission denied" ]})
    = igshelf.Ok o
    /\ downloader.result o = Some "failed to store media content x: permission denied"
    /\ downloader.persisted o
    /\ os.files (downloader.disk o) !! "out/y.jpg" = Some "content of y"
    /\ ~ ((downloader.result o = None /\ downloader.persisted o)
          \/ (downloader.result o <> None /\ ~ downloader.persisted o
              /\ downloader.written (downloader.trace o) = [])).
Proof.
  eexists. split; [reflexivity|]. split; [reflexivity|].
  assert (Hp : downloader.persisted
            (downloader.mkOutcome (Some "failed to store media content x: permission denied")
               (os.mkFS {[ "out/y.jpg" := "content of y" ]}
                  {[ "out/x.jpg" := "permission denied" ]})
               [downloader.Stored [testdata.Y; testdata.X] None;
                downloader.Fetched testdata.Y None;
                downloader.Wrote "out/y.jpg" "content of y" None;
                downloader.Fetched testdata.X None;
                downloader.Wrote "out/x.jpg" "content of x" (Some "permission denied")])).
  { eexists. left. }
  split; [exact Hp|]. split; [reflexivity|].
  intros [[Hr _]|(_ & Hn & _)]; [discriminate Hr|by apply Hn].
Qed.




(** ** The tests of the repository, replayed on the model *)

(** TestMediaList of package archive: the video of October comes before the
    photo of June, with the ids and file names the test expects (the caption
    of the photo is cut after its first sentence). *)
Example archive_TestMediaList :
  let toc : gmap string archive.zipFile :=
    {[ "media.json" := archive.Decodes (archive.mkNomenclature
         [archive.mkRaw "Still jumping" (time.Date 2020 10 7 15 55 33)
            "videos/202010/8c996aa535f0f7a322d4dbaef9cfd266.mp4"]
         [archive.mkRaw "Starting another two-wheeled hobby." (time.Date 2020 6 21 1 12 14)
            "photos/202006/d8612ffa060b392077322ccf2e953f35.jpg"]) ]} in
  exists it',
    igshelf.drain 3
      (archive.List testdata.insertion_sort (archive.mkService toc) igshelf.Background)
    = igshelf.Ok
        ([igshelf.mkMedia "8c996aa535f0f7a322d4dbaef9cfd266" "VIDEO" "Still jumping"
            "videos/202010/8c996aa535f0f7a322d4dbaef9cfd266.mp4" ""
            "202010_8c996aa535f0f7a322d4dbaef9cfd266.mp4" "" ""
            (time.Date 2020 10 7 15 55 33) [];
          igshelf.mkMedia "d8612ffa060b392077322ccf2e953f35" "IMAGE"
            "Starting another two-wheeled hobby."
            "photos/202006/d8612ffa060b392077322ccf2e953f35.jpg" ""
            "202006_d8612ffa060b392077322ccf2e953f35.jpg" "" ""
            (time.Date 2020 6 21 1 12 14) []], it')
    /\ archive.Err it' = None.
Proof. eexists. split; reflexivity. Qed.

(** TestMediaIter, case "video and album". *)
Example archive_TestMediaIter_video_and_album :
  let v := testdata.entry "1" "VIDEO" "cats" (time.Date 2020 10 21 1 12 14) in
  let i := testdata.entry "2" "IMAGE" "still jumping" testdata.T1 in
  let w := testdata.entry "3" "VIDEO" "still jumping" testdata.T1 in
  exists it',
    igshelf.drain 4 (archive.new_iter igshelf.Background [v; i; w])
    = igshelf.Ok
        ([v; igshelf.mkMedia "2album" "CAROUSEL_ALBUM" "still jumping" "" "" "" "" ""
                testdata.T1 [i; w]], it').
Proof. eexists. reflexivity. Qed.

(** TestMediaIter, cases "nil" and "blank". *)
Example archive_TestMediaIter_blank :
  igshelf.drain 1 (archive.new_iter igshelf.Background [])
  = igshelf.Ok ([], archive.new_iter igshelf.Background []).
Proof. reflexivity. Qed.

(** TestMediaList of package instagram: the album of media_list.json with
    its first child. *)
Example instagram_TestMediaList :
  instagram.item testdata.api_album
  = igshelf.mkMedia "17850307850323541" "CAROUSEL_ALBUM" "Still jumping"
      "https://scontent.cdninstagram.com/v/t51.29350-15/..." ""
      "202010_17850307850323541.jpg" ""
      "https://www.instagram.com/p/CGDFCNqHJv1/"
      (time.Date 2020 10 7 15 55 33)
      [igshelf.mkMedia "17850885734317674" "VIDEO" ""
         "https://video.cdninstagram.com/v/t50.2886-16/1..."
         "https://scontent.cdninstagram.com/v/t51.29350-15/1..."
         "202010_17850885734317674.mp4" "202010_17850885734317674_cover.jpg" ""
         time.zero []].
Proof. reflexivity. Qed.

(** TestMediaList_errors: a request that fails sets the error of the
    iterator. *)
Example instagram_TestMediaList_errors :
  let it := (instagram.Next
               (instagram.List [instagram.Failure "unexpected end of JSON input"]
                  igshelf.Background)) in
  it.1 = false /\ instagram.Err it.2 = Some "unexpected end of JSON input".
Proof. split; reflexivity. Qed.

(** TestTimelineIsStored: every download fails, the timeline is stored and
    the run succeeds. TestDownload: content and thumbnail are written. *)
Example downloader_TestTimelineIsStored :
  exists o,
    downloader.Download
      (testdata.mock_service [testdata.video]
         (fun _ _ => downloader.mkDownload "" None (Some "boom")))
      0 2 igshelf.Background "testdata" testdata.empty_disk
    = igshelf.Ok o
    /\ downloader.result o = None
    /\ downloader.trace o
       = [downloader.Stored [testdata.video] None;
          downloader.Fetched testdata.video (Some "boom");
          downloader.Logged testdata.video "boom"].
Proof. eexists. repeat split; reflexivity. Qed.

Example downloader_TestDownload :
  exists o,
    downloader.Download
      (testdata.mock_service [testdata.video]
         (fun _ _ => downloader.mkDownload "content" (Some "thumbnail") None))
      0 2 igshelf.Background "testdata" testdata.empty_disk
    = igshelf.Ok o
    /\ downloader.result o = None
    /\ os.files (downloader.disk o) !! "testdata/17863188140095492.mp4" = Some "content"
    /\ os.files (downloader.disk o) !! "testdata/17863188140095492_cover.jpg"
       = Some "thumbnail".
Proof. eexists. repeat split; reflexivity. Qed.

(** * Further properties *)

(** ** The archive iterator: nothing lost, order kept, no thumbnails *)
Section ArchiveMore.
Import igshelf archive grouping timeline.

Lemma leaves_item_of_run (r : run) :
  Children r.1 = [] -> leaves (item_of_run r) = members r.
Proof.
  destruct r as [m fl]. unfold leaves, item_of_run, members. cbn [fst snd].
  intros Hm. destruct fl as [|f fl]; [by rewrite Hm|done].
Qed.

Lemma Forall_members (P : Media -> Prop) (rs : list run) :
  Forall P (flat_map members rs) -> Forall (fun r : run => Forall P (members r)) rs.
Proof.
  induction rs as [|r rs IH]; cbn [flat_map]; [constructor|].
  intros [Hr Hrs]%Forall_app. constructor; auto.
Qed.

Lemma runs_members_all (P : Media -> Prop) tl :
  Forall P tl -> Forall (fun r : run => Forall P (members r)) (runs tl).
Proof. intros HP. apply Forall_members. by rewrite runs_members. Qed.

Lemma queue_item_of_run (r : run) :
  Forall (fun m => Children m = [] /\ named m) (members r) ->
  filter named (downloader.queue [item_of_run r]) = members r.
Proof.
  destruct r as [m fl]. unfold downloader.queue, item_of_run, members. cbn [fst snd flat_map].
  rewrite app_nil_r. intros Hall.
  assert (Hnamed : filter named (m :: fl) = m :: fl).
  { clear -Hall. induction Hall as [|x l [_ Hx] _ IH]; [done|].
    rewrite filter_cons_True by done. by rewrite IH. }
  destruct fl as [|f fl].
  - apply Forall_inv in Hall as [Hc _]. by rewrite Hc.
  - cbn [album Children members fst snd]. rewrite filter_cons_False; [done|].
    unfold named. cbn. by intros Hn.
Qed.

Lemma queue_app tl tl' :
  downloader.queue (tl ++ tl') = downloader.queue tl ++ downloader.queue tl'.
Proof. unfold downloader.queue. apply flat_map_app. Qed.

Lemma queue_items (rs : list run) :
  Forall (fun r : run => Forall (fun m => Children m = [] /\ named m) (members r)) rs ->
  filter named (downloader.queue (item_of_run <$> rs)) = flat_map members rs.
Proof.
  induction 1 as [|r rs Hr _ IH]; [done|].
  rewrite fmap_cons. change (item_of_run r :: (item_of_run <$> rs))
    with ([item_of_run r] ++ (item_of_run <$> rs)).
  rewrite queue_app, filter_app, IH, queue_item_of_run by done. done.
Qed.

Lemma leaves_items (rs : list run) :
  Forall (fun r : run => Forall (fun m => Children m = []) (members r)) rs ->
  flat_map leaves (item_of_run <$> rs) = flat_map members rs.
Proof.
  induction 1 as [|r rs Hr _ IH]; [done|].
  cbn [fmap list_fmap flat_map]. rewrite IH, leaves_item_of_run; [done|].
  by apply Forall_inv in Hr.
Qed.

Lemma TakenAt_item_of_run (r : run) : TakenAt (item_of_run r) = TakenAt r.1.
Proof. destruct r as [m [|f fl]]; done. Qed.

Lemma remainder_suffix m l : remainder m l `suffix_of` l.
Proof. exists (followers m l). by rewrite followers_remainder. Qed.

Lemma newest_first_suffix l1 l2 : l1 `suffix_of` l2 -> newest_first l2 -> newest_first l1.
Proof.
  intros [k ->]. unfold newest_first. induction k as [|x k IH]; [done|].
  cbn. intros Hs. apply IH. by apply StronglySorted_inv in Hs as [? _].
Qed.

Lemma items_newest_first tl : newest_first tl -> newest_first (item_of_run <$> runs tl).
Proof.
  funelim (runs tl); simp runs; intros Hs; [constructor|].
  rewrite fmap_cons. unfold newest_first in *.
  apply StronglySorted_inv in Hs as [Hl Hm]. constructor.
  - apply H. eapply newest_first_suffix; [apply remainder_suffix|done].
  - apply Forall_fmap, Forall_forall. intros r Hr. cbn.
    rewrite !TakenAt_item_of_run. cbn [fst].
    apply runs_first_in in Hr.
    assert (Hin : r.1 ∈ l).
    { rewrite <- (followers_remainder m l). apply elem_of_app. by right. }
    rewrite Forall_forall in Hm. by apply Hm.
Qed.

Lemma bare_item_of_run (r : run) :
  Forall (fun m => bare m /\ Children m = []) (members r) ->
  bare (item_of_run r)
  /\ Forall (fun ch => bare ch /\ Children ch = []) (Children (item_of_run r)).
Proof.
  destruct r as [m fl]. unfold item_of_run, members. cbn [fst snd]. intros Hall.
  destruct fl as [|f fl].
  - apply Forall_inv in Hall as [Hb Hc]. split; [done|]. rewrite Hc. constructor.
  - split; [done|]. exact Hall.
Qed.

End ArchiveMore.

(** X1. The archive iterator neither loses nor repeats a media: over a flat
    timeline, the leaves of the items it yields (the children of the albums
    and the items that are not albums) are the timeline itself, in order;
    and when every entry has a file name, the media with a file name in the
    queue of the download service are again the timeline: the album items
    add nothing to copy. *)
Theorem archive_iteration_keeps_every_media
    (c : igshelf.Context) (tl : list igshelf.Media) (fuel : nat) :
  igshelf.ctx_Err c = None ->
  grouping.flat tl ->
  (length tl < fuel)%nat ->
  exists out it',
    igshelf.drain fuel (archive.new_iter c tl) = igshelf.Ok (out, it')
    /\ flat_map timeline.leaves out = tl
    /\ (Forall timeline.named tl ->
        filter timeline.named (downloader.queue out) = tl).
Proof.
  intros Hc Hflat Hfuel.
  destruct (drain_runs c (length tl) tl [] None 0 fuel) as (it' & Hd & _); try done.
  eexists _, it'. split; [exact Hd|]. split.
  - rewrite leaves_items by (by apply runs_members_all). apply runs_members.
  - intros Hnamed. rewrite queue_items; [apply runs_members|].
    apply runs_members_all. unfold grouping.flat in Hflat.
    rewrite Forall_forall in *. auto.
Qed.

(** The scenario [a; b; z], with file names. *)
Lemma archive_iteration_keeps_every_media_X_Y_Z :
  exists out it',
    igshelf.drain 4
      (archive.new_iter igshelf.Background [testdata.X; testdata.Y; testdata.Z_])
    = igshelf.Ok (out, it')
    /\ flat_map timeline.leaves out = [testdata.X; testdata.Y; testdata.Z_]
    /\ filter timeline.named (downloader.queue out) = [testdata.X; testdata.Y; testdata.Z_].
Proof.
  assert (Hflat : grouping.flat [testdata.X; testdata.Y; testdata.Z_])
    by (repeat constructor).
  assert (Hlen : (length [testdata.X; testdata.Y; testdata.Z_] < 4)%nat) by (simpl; lia).
  destruct (archive_iteration_keeps_every_media igshelf.Background
              [testdata.X; testdata.Y; testdata.Z_] 4 eq_refl Hflat Hlen)
    as (out & it' & Hd & Hl & Hq).
  exists out, it'. split; [exact Hd|]. split; [exact Hl|]. apply Hq.
  repeat constructor; discriminate.
Defined.

(** X2. The archive iterator keeps the order of its timeline: when no entry
    of a flat timeline is newer than an entry before it, no item it yields
    is newer than an item yielded before. *)
Theorem archive_iteration_newest_first
    (c : igshelf.Context) (tl : list igshelf.Media) (fuel : nat) :
  igshelf.ctx_Err c = None ->
  grouping.flat tl ->
  timeline.newest_first tl ->
  (length tl < fuel)%nat ->
  exists out it',
    igshelf.drain fuel (archive.new_iter c tl) = igshelf.Ok (out, it')
    /\ timeline.newest_first out.
Proof.
  intros Hc Hflat Hs Hfuel.
  destruct (drain_runs c (length tl) tl [] None 0 fuel) as (it' & Hd & _); try done.
  eexists _, it'. split; [exact Hd|]. by apply items_newest_first.
Qed.

Lemma archive_iteration_newest_first_scenario :
  exists out it',
    igshelf.drain 4 (archive.new_iter igshelf.Background testdata.scenario)
    = igshelf.Ok (out, it')
    /\ timeline.newest_first out.
Proof.
  apply archive_iteration_newest_first.
  - reflexivity.
  - repeat constructor.
  - repeat constructor.
  - simpl. lia.
Defined.

Lemma insert_sorted_Permutation less x l :
  Permutation (testdata.insert_sorted less x l) (x :: l).
Proof.
  induction l as [|y l IH]; cbn; [done|].
  destruct (less y x); [|done]. etrans; [apply perm_skip, IH|apply perm_swap].
Qed.

Lemma insertion_sort_Permutation less l : Permutation (testdata.insertion_sort less l) l.
Proof.
  induction l as [|x l IH]; [constructor|].
  cbn. etrans; [apply insert_sorted_Permutation|]. by apply perm_skip.
Qed.

(** X3. Thumbnails and permalinks are never available from an archive, and
    its albums are one level deep: whatever order [sort.Slice] leaves (it
    permutes its input), every item the iterator of [List] yields, and every
    child of such an item, has an empty thumbnail location, thumbnail file
    name and permalink, and the children have no children. *)
Theorem archive_items_are_bare
    (sort_Slice : (igshelf.Media -> igshelf.Media -> bool) -> list igshelf.Media
                  -> list igshelf.Media)
    (s : archive.MediaService) (c : igshelf.Context) (fuel : nat) :
  (forall less l, Permutation (sort_Slice less l) l) ->
  (length (archive.timeline (archive.List sort_Slice s c)) < fuel)%nat ->
  exists out it',
    igshelf.drain fuel (archive.List sort_Slice s c) = igshelf.Ok (out, it')
    /\ Forall (fun m =>
         timeline.bare m
         /\ Forall (fun ch => timeline.bare ch /\ igshelf.Children ch = [])
              (igshelf.Children m)) out.
Proof.
  intros Hperm Hfuel.
  pose proof (archive_List_archived sort_Slice s c Hperm) as Harch.
  set (it := archive.List sort_Slice s c) in *.
  destruct fuel as [|fuel]; [lia|].
  destruct (archive.err it) as [e|] eqn:He.
  { cbn [igshelf.drain igshelf.iter_Next archive.archive_iter].
    rewrite archive_Next_faulted by (unfold archive.Err; by rewrite He).
    eexists _, _. split; [done|]. constructor. }
  destruct (igshelf.ctx_Err (archive.ctx it)) as [e|] eqn:Hc.
  { cbn [igshelf.drain igshelf.iter_Next archive.archive_iter].
    rewrite archive_Next_canceled by (by rewrite Hc).
    eexists _, _. split; [done|]. constructor. }
  assert (Hit : it = archive.mkIter None (archive.ctx it) 0 None
                       ([] ++ archive.timeline it)).
  { unfold it, archive.List in *.
    destruct (archive.toc s !! archive.tocFilename) as [[?|?|?]|]; try done. }
  rewrite Hit.
  destruct (drain_runs (archive.ctx it) (length (archive.timeline it))
              (archive.timeline it) [] None 0 (S fuel)) as (it' & Hd & _); try done.
  { by apply archived_flat. }
  eexists _, it'. split; [exact Hd|].
  apply Forall_fmap.
  assert (Hall : Forall (fun m => timeline.bare m /\ igshelf.Children m = [])
                   (archive.timeline it)).
  { eapply Forall_impl; [exact Harch|]. intros m (_ & Hc' & H1 & H2 & H3).
    by repeat split. }
  apply runs_members_all in Hall.
  eapply Forall_impl; [exact Hall|]. intros r Hr. by apply bare_item_of_run.
Qed.

Lemma archive_items_are_bare_20201007 :
  exists out it',
    igshelf.drain 3
      (archive.List testdata.insertion_sort fixtures.archive_20201007 igshelf.Background)
    = igshelf.Ok (out, it')
    /\ Forall (fun m =>
         timeline.bare m
         /\ Forall (fun ch => timeline.bare ch /\ igshelf.Children ch = [])
              (igshelf.Children m)) out.
Proof.
  apply archive_items_are_bare; [apply insertion_sort_Permutation|vm_compute; lia].
Defined.

(** ** Runs of the download service over the two sources *)
Section RunsMore.
Import igshelf downloader.

Lemma copy_nil {I : Type} (s : Service I) parent dir grace gerr fs :
  copy s parent dir grace [] gerr fs = (gerr, fs, []).
Proof. done. Qed.

(** A run whose listing fails stores and copies nothing. *)
Lemma Download_listing_fails {I : Type} `{igshelf.MediaIter I}
    (s : Service I) grace fuel c dir fs tl it e :
  drain fuel (ig_List s c) = Ok (tl, it) -> iter_Err it = Some e ->
  Download s grace fuel c dir fs
  = Ok (mkOutcome (Some (wrap "failed to fetch the timeline" e)) fs []).
Proof. intros Hd He. unfold Download. by rewrite Hd, He. Qed.

End RunsMore.

(** X4. A run over an archive whose context is already canceled succeeds
    and stores an empty timeline: when the manifest decodes, the iterator
    yields nothing and reports no error, so [Store] receives the empty
    timeline, no media is fetched, no file is written and the run returns
    [nil]. *)
Theorem canceled_archive_run_stores_empty_timeline
    (sort_Slice : (igshelf.Media -> igshelf.Media -> bool) -> list igshelf.Media
                  -> list igshelf.Media)
    (a : archive.MediaService)
    (dl : igshelf.Context -> igshelf.Media -> downloader.download)
    (store : list igshelf.Media -> option error)
    (workers : Z) (e : error) (grace fuel : nat) (dir : string) (fs : os.FS) :
  archive.Err (archive.List sort_Slice a (Some e)) = None ->
  store [] = None ->
  (0 < workers)%Z ->
  (0 < fuel)%nat ->
  downloader.Download (downloader.mkService (archive.List sort_Slice a) dl store workers)
    grace fuel (Some e) dir fs
  = igshelf.Ok (downloader.mkOutcome None fs [downloader.Stored [] None]).
Proof.
  intros Herr Hstore Hw Hfuel. destruct fuel as [|fuel]; [lia|].
  set (s := downloader.mkService (archive.List sort_Slice a) dl store workers).
  assert (Hc : igshelf.ctx_Err (archive.ctx (archive.List sort_Slice a (Some e))) <> None).
  { unfold archive.List. by destruct (archive.toc a !! archive.tocFilename) as [[?|?|?]|]. }
  assert (Hd : igshelf.drain (S fuel) (downloader.ig_List s (Some e))
               = igshelf.Ok ([], archive.List sort_Slice a (Some e))).
  { cbn [igshelf.drain igshelf.iter_Next archive.archive_iter downloader.ig_List s].
    by rewrite archive_Next_canceled. }
  by rewrite (Download_copies s grace (S fuel) (Some e) dir fs [] _ Hd Herr Hstore Hw).
Qed.

Lemma canceled_archive_run_stores_empty_timeline_20201007 :
  downloader.Download
    (downloader.mkService (archive.List testdata.insertion_sort fixtures.archive_20201007)
       testdata.download_all (fun _ => None) 10)
    0 1 (Some igshelf.Canceled) "out" testdata.empty_disk
  = igshelf.Ok (downloader.mkOutcome None testdata.empty_disk [downloader.Stored [] None]).
Proof.
  apply canceled_archive_run_stores_empty_timeline; [reflexivity|reflexivity|lia|lia].
Defined.

(** X5. What a run over the API persists. When a request for a page fails,
    the run returns the error "failed to fetch the timeline" and neither
    stores the items of the pages fetched before nor copies any file. When
    no request fails, the timeline handed to [Store] is made of the items
    of the pages up to the first empty page or the first empty cursor. *)
Theorem remote_run_persists_collected
    (srv : list instagram.response)
    (dl : igshelf.Context -> igshelf.Media -> downloader.download)
    (store : list igshelf.Media -> option error)
    (workers : Z) (c : igshelf.Context) (grace fuel : nat) (dir : string) (fs : os.FS) :
  (length (paging.collected srv).1 < fuel)%nat ->
  (0 < workers)%Z ->
  exists o,
    downloader.Download (downloader.mkService (instagram.List srv) dl store workers)
      grace fuel c dir fs = igshelf.Ok o
    /\ match (paging.collected srv).2 with
       | paging.Faulted e =>
           o = downloader.mkOutcome (Some (wrap "failed to fetch the timeline" e)) fs []
       | _ =>
           match store (paging.collected srv).1 with
           | Some e =>
               o = downloader.mkOutcome (Some (wrap "failed to store the timeline" e)) fs
                     [downloader.Stored (paging.collected srv).1 (Some e)]
           | None =>
               exists ev, downloader.trace o
                          = downloader.Stored (paging.collected srv).1 None :: ev
           end
       end.
Proof.
  intros Hfuel Hw.
  set (s := downloader.mkService (instagram.List srv) dl store workers).
  destruct (drain_collected fuel (instagram.mkFetcher None srv) 0 []) as (it' & Hd & Hfin).
  { by rewrite to_come_initial. }
  rewrite to_come_initial in Hd, Hfin. cbn [drop app] in Hd.
  change (instagram.mkIter (instagram.mkFetcher None srv) None 0 [])
    with (downloader.ig_List s c) in Hd.
  assert (Hstore : forall e, igshelf.iter_Err it' = None ->
            store (paging.collected srv).1 = Some e ->
            downloader.Download s grace fuel c dir fs
            = igshelf.Ok (downloader.mkOutcome
                (Some (wrap "failed to store the timeline" e)) fs
                [downloader.Stored (paging.collected srv).1 (Some e)])).
  { intros e He Hs. unfold downloader.Download. rewrite Hd, He. cbn [downloader.db_Store s].
    by rewrite Hs. }
  destruct ((paging.collected srv).2) as [| |e] eqn:Hend.
  - destruct Hfin as [He _].
    destruct (store (paging.collected srv).1) as [e|] eqn:Hs.
    + eexists. split; [by apply Hstore|done].
    + eexists. rewrite (Download_copies s grace fuel c dir fs _ it' Hd He Hs Hw).
      split; [done|]. by eexists.
  - destruct (store (paging.collected srv).1) as [e|] eqn:Hs.
    + eexists. split; [by apply Hstore|done].
    + eexists. rewrite (Download_copies s grace fuel c dir fs _ it' Hd Hfin Hs Hw).
      split; [done|]. by eexists.
  - destruct Hfin as [He _]. eexists. split; [|done].
    by apply (Download_listing_fails s grace fuel c dir fs (paging.collected srv).1 it' e).
Qed.

(** A page, then a request that fails: nothing is stored. *)
Lemma remote_run_persists_collected_failure :
  exists o,
    downloader.Download
      (downloader.mkService
         (instagram.List [instagram.Page (instagram.mkPage [testdata.api_album] "QVFIUm");
                          instagram.Failure "unexpected end of JSON input"])
         testdata.download_all (fun _ => None) 10)
      0 2 igshelf.Background "out" testdata.empty_disk
    = igshelf.Ok o
    /\ o = downloader.mkOutcome
             (Some "failed to fetch the timeline: unexpected end of JSON input")
             testdata.empty_disk [].
Proof.
  apply (remote_run_persists_collected
           [instagram.Page (instagram.mkPage [testdata.api_album] "QVFIUm");
            instagram.Failure "unexpected end of JSON input"]
           testdata.download_all (fun _ => None) 10 igshelf.Background 0 2 "out"
           testdata.empty_disk); [simpl; lia|lia].
Defined.

(** X6. An empty page that carries a cursor stops the iteration without
    ending it: the call of [Next] that fetches it returns [false] with [Err]
    returning [nil], and the call after that one fetches the following page
    and returns [true] on its first item. *)
Theorem remote_next_resumes_after_empty_page
    (cursor : string) (v : instagram.mediaListResp) (srv : list instagram.response)
    (c : igshelf.Context) :
  cursor <> "" ->
  instagram.Batch v <> [] ->
  let first := instagram.Next
                 (instagram.List (instagram.Page (instagram.mkPage [] cursor)
                                  :: instagram.Page v :: srv) c) in
  let second := instagram.Next first.2 in
  first.1 = false
  /\ instagram.Err first.2 = None
  /\ second.1 = true
  /\ instagram.Media_ second.2 = head (instagram.item <$> instagram.Batch v).
Proof.
  intros Hc Hv first second. unfold second, first, instagram.List.
  rewrite Next_refill by (cbn; lia).
  rewrite (fetch_page _ (instagram.mkPage [] cursor) (instagram.Page v :: srv)) by done.
  cbn [fst snd instagram.Batch instagram.After fmap list_fmap length].
  rewrite Next_refill by (cbn; lia).
  rewrite (fetch_page _ v srv) by (cbn; by (intros [= ?] || done)).
  cbn [fst snd]. split; [done|]. split; [done|].
  destruct (instagram.Batch v) as [|r rs]; [done|]. by cbn.
Qed.

Lemma remote_next_resumes_after_empty_page_gap :
  let first := instagram.Next
                 (instagram.List (instagram.Page <$> testdata.pages_with_gap)
                    igshelf.Background) in
  first.1 = false /\ instagram.Err first.2 = None /\ (instagram.Next first.2).1 = true.
Proof.
  destruct (remote_next_resumes_after_empty_page "QVFIUm"
              (instagram.mkPage [testdata.api_image "1"] "") [] igshelf.Background)
    as (H1 & H2 & H3 & _); [discriminate|discriminate|].
  split; [exact H1|]. split; [exact H2|exact H3].
Defined.

(** ** The download service: what it fetches, what it leaves on disk *)
Section DownloaderMore.
Import igshelf downloader timeline.
Context {I : Type} (s : Service I) (dir : string).

(** A worker fetches its media exactly when the media has a file name. *)
Lemma worker_fetched c m fs :
  fetched (worker s c dir m fs).2 = if decide (named m) then [m] else [].
Proof.
  unfold named. destruct (decide (Filename m <> "")) as [Hn|Hn].
  - unfold worker, os.WriteFile. rewrite IsExist_Stat.
    destruct (String.eqb_spec (Filename m) ""); [done|].
    destruct (dl_err (ig_Download s c m)); [done|].
    destruct (os.faults fs !! filepath.Join dir (Filename m)); [done|].
    destruct (thumbnail (ig_Download s c m)); [|done]. cbn [os.faults].
    by destruct (os.faults fs !! filepath.Join dir (ThumbnailFilename m)).
  - rewrite worker_unnamed; [done|]. by destruct (decide (Filename m = "")).
Qed.

Lemma copy_fetched_among parent work : forall grace gerr fs,
  fetched (copy s parent dir grace work gerr fs).2 ⊆+ filter named work.
Proof.
  induction work as [|m rest IH]; intros grace gerr fs; [done|].
  rewrite copy_cons.
  assert (Hstep : forall c g r fs1,
    fetched ((worker s c dir m fs).2 ++ (copy s parent dir g rest r fs1).2)
    ⊆+ filter named (m :: rest)).
  { intros c g r fs1. rewrite fetched_app, worker_fetched.
    destruct (decide (named m)).
    - rewrite filter_cons_True by done. apply submseteq_skip, IH.
    - rewrite filter_cons_False by done. apply IH. }
  destruct (group_ctx parent gerr) as [e|]; [destruct grace as [|g]|]; cbn [fst snd].
  - apply submseteq_nil_l.
  - apply Hstep.
  - apply Hstep.
Qed.

Lemma first_error_none gerr r : first_error gerr r = None -> gerr = None /\ r = None.
Proof. by destruct gerr. Qed.

Lemma copy_succeeds_fetched parent work : forall grace gerr fs,
  (copy s parent dir grace work gerr fs).1.1 = None ->
  fetched (copy s parent dir grace work gerr fs).2 ≡ₚ filter named work.
Proof.
  induction work as [|m rest IH]; intros grace gerr fs; [done|].
  rewrite copy_cons.
  assert (Hstep : forall c g,
    (copy s parent dir g rest (first_error gerr (worker s c dir m fs).1.1)
       (worker s c dir m fs).1.2).1.1 = None ->
    fetched ((worker s c dir m fs).2
             ++ (copy s parent dir g rest (first_error gerr (worker s c dir m fs).1.1)
                   (worker s c dir m fs).1.2).2)
    ≡ₚ filter named (m :: rest)).
  { intros c g Hnone. rewrite fetched_app, worker_fetched, (IH _ _ _ Hnone).
    destruct (decide (named m)).
    - by rewrite filter_cons_True.
    - by rewrite filter_cons_False. }
  destruct (group_ctx parent gerr) as [e|]; [destruct grace as [|g]|]; cbn [fst snd].
  - by destruct gerr.
  - apply Hstep.
  - apply Hstep.
Qed.

Lemma copy_faults parent work : forall grace gerr fs,
  os.faults (copy s parent dir grace work gerr fs).1.2 = os.faults fs.
Proof.
  induction work as [|m rest IH]; intros grace gerr fs; [done|].
  rewrite copy_cons.
  destruct (group_ctx parent gerr) as [e|]; [destruct grace as [|g]|]; cbn [fst snd];
    try done; by rewrite IH, worker_faults.
Qed.

Lemma copy_written_targets parent work : forall grace gerr fs p,
  p ∈ written (copy s parent dir grace work gerr fs).2 ->
  exists m, m ∈ work /\ named m
    /\ (p = filepath.Join dir (Filename m) \/ p = filepath.Join dir (ThumbnailFilename m)).
Proof.
  induction work as [|x rest IH]; intros grace gerr fs p.
  { cbn. intros Hp. by apply elem_of_nil in Hp. }
  rewrite copy_cons.
  assert (Hstep : forall c g r fs1,
    p ∈ written ((worker s c dir x fs).2 ++ (copy s parent dir g rest r fs1).2) ->
    exists m, m ∈ x :: rest /\ named m
      /\ (p = filepath.Join dir (Filename m)
          \/ p = filepath.Join dir (ThumbnailFilename m))).
  { intros c g r fs1. rewrite written_app, elem_of_app. intros [Hp|Hp].
    - destruct (worker_written_origin s dir c x fs p Hp) as (Hn & _ & Hpath).
      exists x. split; [left|done].
    - destruct (IH _ _ _ _ Hp) as (m & Hm & Hrest). exists m. split; [by right|done]. }
  destruct (group_ctx parent gerr) as [e|]; [destruct grace as [|g]|]; cbn [fst snd].
  - intros Hp. by apply elem_of_nil in Hp.
  - apply Hstep.
  - apply Hstep.
Qed.

Lemma written_in_targets tl p m :
  m ∈ queue tl -> named m ->
  p = filepath.Join dir (Filename m) \/ p = filepath.Join dir (ThumbnailFilename m) ->
  p ∈ targets dir tl.
Proof.
  intros Hm Hn Hp. unfold targets. apply list_elem_of_In, in_flat_map.
  exists m. split.
  - apply list_elem_of_In. by apply list_elem_of_filter.
  - destruct Hp as [->| ->]; [left|right; left]; done.
Qed.

End DownloaderMore.

Section RunShape.
Import igshelf downloader.
Context {I : Type} `{igshelf.MediaIter I} (s : Service I).

(** The three shapes of a run whose listing loop ends and whose pool has
    room. *)
Lemma Download_shape grace fuel c dir fs tl it :
  drain fuel (ig_List s c) = Ok (tl, it) -> (0 < maxWorkers s)%Z ->
  Download s grace fuel c dir fs
  = Ok (match iter_Err it, db_Store s tl with
        | Some e, _ => mkOutcome (Some (wrap "failed to fetch the timeline" e)) fs []
        | None, Some e =>
            mkOutcome (Some (wrap "failed to store the timeline" e)) fs [Stored tl (Some e)]
        | None, None =>
            mkOutcome (copy s c dir grace (queue tl) None fs).1.1
              (copy s c dir grace (queue tl) None fs).1.2
              (Stored tl None :: (copy s c dir grace (queue tl) None fs).2)
        end).
Proof.
  intros Hd Hw. destruct (iter_Err it) as [e|] eqn:He;
    [|destruct (db_Store s tl) as [e|] eqn:Hs].
  - unfold Download. by rewrite Hd, He.
  - unfold Download. by rewrite Hd, He, Hs.
  - by apply (Download_copies s grace fuel c dir fs tl it).
Qed.

End RunShape.

(** X7. Whatever the order in which the workers run, a run fetches only
    media of its queue that have a file name, each at most as often as it is
    queued; and a run that succeeds has fetched every media of the queue
    that has a file name, exactly as often as it is queued. *)
Theorem run_fetches_named_media_once {I : Type} `{igshelf.MediaIter I}
    (s : downloader.Service I) (grace fuel : nat) (c : igshelf.Context)
    (dir : string) (fs : os.FS) (tl : list igshelf.Media) (it : I) :
  igshelf.drain fuel (downloader.ig_List s c) = igshelf.Ok (tl, it) ->
  (0 < downloader.maxWorkers s)%Z ->
  exists o,
    downloader.Download s grace fuel c dir fs = igshelf.Ok o
    /\ downloader.fetched (downloader.trace o)
       ⊆+ filter timeline.named (downloader.queue tl)
    /\ (downloader.result o = None ->
        downloader.fetched (downloader.trace o)
        ≡ₚ filter timeline.named (downloader.queue tl)).
Proof.
  intros Hd Hw. eexists. split; [exact (Download_shape s grace fuel c dir fs tl it Hd Hw)|].
  destruct (igshelf.iter_Err it) as [e|];
    [|destruct (downloader.db_Store s tl) as [e|]];
    cbn [downloader.trace downloader.result].
  - split; [apply submseteq_nil_l|done].
  - split; [apply submseteq_nil_l|done].
  - split; [apply copy_fetched_among|]. apply copy_succeeds_fetched.
Qed.

Lemma run_fetches_named_media_once_X_Y_Z :
  exists o,
    downloader.Download
      (testdata.mock_service [testdata.X; testdata.Y; testdata.Z_] testdata.download_but_X)
      0 4 igshelf.Background "out" testdata.empty_disk
    = igshelf.Ok o
    /\ downloader.fetched (downloader.trace o) ≡ₚ [testdata.X; testdata.Y; testdata.Z_].
Proof.
  assert (Hd : igshelf.drain 4
            (downloader.ig_List
               (testdata.mock_service [testdata.X; testdata.Y; testdata.Z_]
                  testdata.download_but_X) igshelf.Background)
          = igshelf.Ok ([testdata.X; testdata.Y; testdata.Z_],
                        mock.mkIter [testdata.X; testdata.Y; testdata.Z_] None 3
                          (Some testdata.Z_)))
    by reflexivity.
  destruct (run_fetches_named_media_once
              (testdata.mock_service [testdata.X; testdata.Y; testdata.Z_]
                 testdata.download_but_X)
              0 4 igshelf.Background "out" testdata.empty_disk _ _ Hd eq_refl)
    as (o & Ho & _ & Heq).
  exists o. split; [exact Ho|]. etrans; [apply Heq|reflexivity].
  injection Ho as <-. reflexivity.
Defined.

(** X8. A run never deletes a file and touches only the paths of its
    queue: every file that existed before the run exists after it; every
    path that is neither the content path nor the thumbnail path of a
    queued media with a file name has the content (or the absence) it had
    before; and every path the run reports as written is one of those paths
    and holds a file. *)
Theorem run_keeps_other_files {I : Type} `{igshelf.MediaIter I}
    (s : downloader.Service I) (grace fuel : nat) (c : igshelf.Context)
    (dir : string) (fs : os.FS) (tl : list igshelf.Media) (it : I) :
  igshelf.drain fuel (downloader.ig_List s c) = igshelf.Ok (tl, it) ->
  (0 < downloader.maxWorkers s)%Z ->
  exists o,
    downloader.Download s grace fuel c dir fs = igshelf.Ok o
    /\ (forall p, is_Some (os.files fs !! p) -> is_Some (os.files (downloader.disk o) !! p))
    /\ (forall p, p ∉ timeline.targets dir tl ->
          os.files (downloader.disk o) !! p = os.files fs !! p)
    /\ (forall p, p ∈ downloader.written (downloader.trace o) ->
          p ∈ timeline.targets dir tl /\ is_Some (os.files (downloader.disk o) !! p)).
Proof.
  intros Hd Hw. eexists. split; [exact (Download_shape s grace fuel c dir fs tl it Hd Hw)|].
  destruct (igshelf.iter_Err it) as [e|];
    [|destruct (downloader.db_Store s tl) as [e|]];
    cbn [downloader.trace downloader.disk].
  - split; [done|]. split; [done|]. intros p Hp. by apply elem_of_nil in Hp.
  - split; [done|]. split; [done|]. intros p Hp. by apply elem_of_nil in Hp.
  - assert (Hin : forall p,
              p ∈ downloader.written
                    (downloader.copy s c dir grace (downloader.queue tl) None fs).2 ->
              p ∈ timeline.targets dir tl).
    { intros p Hp. destruct (copy_written_targets s dir _ _ _ _ _ _ Hp) as (m & Hm & Hn & Hpath).
      by apply (written_in_targets dir tl p m). }
    split; [intros p; apply copy_files_kept|]. split.
    + intros p Hp. apply copy_files_elsewhere. intros Hw'. by apply Hp, Hin.
    + intros p Hp. split; [by apply Hin|]. by apply copy_files_written.
Qed.

Lemma run_keeps_other_files_rerun :
  exists o,
    downloader.Download (testdata.mock_service [testdata.Y] testdata.download_all)
      0 2 igshelf.Background "out"
      (os.mkFS {[ "out/old.jpg" := "old"; "out/y.jpg" := "stale" ]} ∅)
    = igshelf.Ok o
    /\ is_Some (os.files (downloader.disk o) !! "out/old.jpg")
    /\ os.files (downloader.disk o) !! "out/y.jpg" = Some "content of y".
Proof.
  assert (Hd : igshelf.drain 2
            (downloader.ig_List (testdata.mock_service [testdata.Y] testdata.download_all)
               igshelf.Background)
          = igshelf.Ok ([testdata.Y], mock.mkIter [testdata.Y] None 1 (Some testdata.Y)))
    by reflexivity.
  destruct (run_keeps_other_files
              (testdata.mock_service [testdata.Y] testdata.download_all)
              0 2 igshelf.Background "out"
              (os.mkFS {[ "out/old.jpg" := "old"; "out/y.jpg" := "stale" ]} ∅)
              _ _ Hd eq_refl) as (o & Ho & Hkeep & _).
  exists o. split; [exact Ho|]. split.
  - apply Hkeep. by eexists.
  - injection Ho as <-. reflexivity.
Defined.

(** ** The collaborators: copies over HTTP and from the archive, the pool,
    the mock iterator, the JSON file *)
Section CollaboratorFacts.
Import igshelf.

Lemma worker_leaves_disk_on_download_error {I : Type} (s : downloader.Service I)
    c dir m fs :
  downloader.dl_err (downloader.ig_Download s c m) <> None ->
  (downloader.worker s c dir m fs).1 = (None, fs).
Proof.
  intros He. destruct (decide (Filename m = "")) as [Hn|Hn].
  - by rewrite worker_unnamed.
  - destruct (downloader.dl_err (downloader.ig_Download s c m)) as [e|] eqn:Hd; [|done].
    by rewrite (worker_swallows s dir c m fs e).
Qed.

(** The mock iterator in front of [rest]. *)
Lemma mock_drain b : forall rest pre cur cr fuel,
  b = pre ++ rest ->
  (if cr is Some _ then S cur else cur) = length pre ->
  (length rest < fuel)%nat ->
  exists it', drain fuel (mock.mkIter b None cur cr) = Ok (rest, it')
    /\ mock.Err it' = None /\ (mock.Next it').1 = false.
Proof.
  induction rest as [|m rest IH]; intros pre cur cr fuel Hb Hpos Hfuel;
    (destruct fuel as [|fuel]; [simpl in Hfuel; lia|]);
    cbn [drain iter_Next mock.mock_iter]; unfold mock.Next at 1;
    cbn [mock.Media_ mock.current mock.cursor mock.Batch mock.err]; rewrite Hpos, Hb.
  - rewrite lookup_ge_None_2 by (rewrite app_nil_r; lia).
    eexists. split; [done|]. split; [done|]. unfold mock.Next.
    cbn [mock.Media_ mock.current mock.cursor mock.Batch mock.err].
    rewrite lookup_ge_None_2; [done|]. rewrite app_nil_r. destruct cr; lia.
  - rewrite lookup_app_r, Nat.sub_diag by lia. cbn [lookup list_lookup].
    cbn [iter_Media mock.mock_iter mock.Media_ mock.current].
    destruct (IH (pre ++ [m]) (length pre) (Some m) fuel) as (it' & Hd & Hrest).
    + by rewrite <- (assoc_L (++)).
    + rewrite length_app. simpl. lia.
    + simpl in Hfuel. lia.
    + rewrite <- Hb, Hd. by exists it'.
Qed.

End CollaboratorFacts.

(** X9. The copy of a media over HTTP is all or nothing. [Download] returns
    no error exactly when the content is fetched and, for a media with a
    thumbnail location, the thumbnail too; it returns a thumbnail only for a
    media with a thumbnail location. When the content is fetched but the
    thumbnail is not, [Download] returns the content together with an
    error, and a worker of the download service then writes nothing and
    returns no error: the media is left out entirely. *)
Theorem remote_copy_is_all_or_nothing
    (get : igshelf.Context -> string -> instagram_files.reply)
    (c : igshelf.Context) (m : igshelf.Media) :
  let d := instagram_files.Download get c m in
  (downloader.dl_err d = None <->
     (exists content, get c (igshelf.Location m) = instagram_files.Body content)
     /\ (igshelf.ThumbnailLocation m = ""
         \/ exists t, get c (igshelf.ThumbnailLocation m) = instagram_files.Body t))
  /\ (downloader.thumbnail d <> None -> igshelf.ThumbnailLocation m <> "")
  /\ (forall content,
        get c (igshelf.Location m) = instagram_files.Body content ->
        igshelf.ThumbnailLocation m <> "" ->
        (forall t, get c (igshelf.ThumbnailLocation m) <> instagram_files.Body t) ->
        downloader.content d = content
        /\ downloader.dl_err d <> None
        /\ forall (I : Type) (list_ : igshelf.Context -> I)
                  (store : list igshelf.Media -> option error) (workers : Z)
                  (dir : string) (fs : os.FS),
             (downloader.worker
                (downloader.mkService list_ (instagram_files.Download get) store workers)
                c dir m fs).1 = (None, fs)).
Proof.
  intros d. unfold d, instagram_files.Download. split; [|split].
  - destruct (get c (igshelf.Location m)) as [e|e|e|content] eqn:Hc; cbn.
    1-3: split; [done|]; by intros [[? [=]] _].
    destruct (String.eqb_spec (igshelf.ThumbnailLocation m) "") as [Ht|Ht]; cbn.
    + split; [|done]. intros _. split; [by eexists|by left].
    + destruct (get c (igshelf.ThumbnailLocation m)) as [e|e|e|t] eqn:Hg; cbn.
      1-3: split; [done|]; intros [_ [?|[? [=]]]]; done.
      split; [|done]. intros _. split; [by eexists|]. right. by eexists.
  - destruct (get c (igshelf.Location m)) as [e|e|e|content]; cbn; try done.
    destruct (String.eqb_spec (igshelf.ThumbnailLocation m) ""); cbn; done.
  - intros content Hc Ht Hno. rewrite Hc.
    destruct (String.eqb_spec (igshelf.ThumbnailLocation m) ""); [done|].
    assert (Herr : downloader.dl_err
              match get c (igshelf.ThumbnailLocation m) with
              | instagram_files.RequestError e => downloader.mkDownload content None (Some e)
              | instagram_files.DoError e =>
                  downloader.mkDownload content None
                    (Some (wrap "failed to download thumbnail" e))
              | instagram_files.BodyError e =>
                  downloader.mkDownload content None
                    (Some (wrap "failed to read thumbnail" e))
              | instagram_files.Body thumbnail =>
                  downloader.mkDownload content (Some thumbnail) None
              end <> None).
    { destruct (get c (igshelf.ThumbnailLocation m)) as [e|e|e|t] eqn:Hg; cbn; try done.
      by destruct (Hno t). }
    split; [by destruct (get c (igshelf.ThumbnailLocation m))|]. split; [exact Herr|].
    intros I list_ store workers dir fs.
    apply worker_leaves_disk_on_download_error.
    cbn [downloader.ig_Download]. unfold instagram_files.Download. rewrite Hc.
    destruct (String.eqb_spec (igshelf.ThumbnailLocation m) ""); [done|]. exact Herr.
Qed.

(** The video of the tests on a server that does not give its cover. *)
Lemma remote_copy_is_all_or_nothing_without_cover :
  downloader.content
    (instagram_files.Download fixtures.get_without_cover igshelf.Background testdata.video)
  = "mp4 bytes"
  /\ (downloader.worker
        (downloader.mkService (fun _ => mock.new_iter [testdata.video])
           (instagram_files.Download fixtures.get_without_cover) (fun _ => None) 10)
        igshelf.Background "out" testdata.video testdata.empty_disk).1
     = (None, testdata.empty_disk).
Proof.
  destruct (remote_copy_is_all_or_nothing fixtures.get_without_cover igshelf.Background
              testdata.video) as (_ & _ & H).
  destruct (H "mp4 bytes" eq_refl) as (Hc & _ & Hw).
  - discriminate.
  - intros t. discriminate.
  - split; [exact Hc|]. apply Hw.
Defined.

(** X10. What the archive service can copy. [Download] never returns a
    thumbnail. It looks the media up by its location among the files of the
    archive that [NewService] listed, that is those named media.json or
    ending in .jpg or .mp4: for a location of another kind, or one no file
    bears, it fails with "file not found in archive"; otherwise the last
    file of the archive that bears the name decides, and its content is
    returned when it opens and reads. *)
Theorem archive_download_finds_listed_files
    (files : list archive_files.File) (toc : gmap string archive_files.File)
    (c : igshelf.Context) (m : igshelf.Media) :
  archive_files.NewService (inr files) = inr toc ->
  let d := archive_files.Download toc c m in
  let not_found := Some ("file not found in archive " +:+ igshelf.Location m) in
  downloader.thumbnail d = None
  /\ (archive_files.listed (igshelf.Location m) = false -> downloader.dl_err d = not_found)
  /\ (Forall (fun f => archive_files.Name f <> igshelf.Location m) files ->
      downloader.dl_err d = not_found)
  /\ (forall pre f post,
        files = pre ++ f :: post ->
        archive_files.Name f = igshelf.Location m ->
        Forall (fun g => archive_files.Name g <> igshelf.Location m) post ->
        archive_files.listed (igshelf.Location m) = true ->
        d = match archive_files.read f with
            | archive_files.OpenError e =>
                downloader.mkDownload "" None
                  (Some (wrap ("failed to open file in archive " +:+ igshelf.Location m) e))
            | archive_files.ReadError e =>
                downloader.mkDownload "" None (Some (wrap "failed to read content" e))
            | archive_files.Data content => downloader.mkDownload content None None
            end).
Proof.
  intros [= <-] d not_found. unfold d, archive_files.Download. split; [|split; [|split]].
  - destruct (_ !! igshelf.Location m) as [f|]; [|done]. by destruct (archive_files.read f).
  - intros Hl. by rewrite toc_fold_unlisted, lookup_empty.
  - intros Hall. by rewrite toc_fold_absent, lookup_empty.
  - intros pre f post -> Hf Hpost Hl. by rewrite (toc_fold_last _ pre f post).
Qed.

(** The files of [fixtures.files]: the photo that is there twice is copied
    from its last file, the picture in another format is not found. *)
Lemma archive_download_finds_listed_files_examples :
  exists toc,
    archive_files.NewService (inr fixtures.files) = inr toc
    /\ archive_files.Download toc igshelf.Background
         (fixtures.located "photos/202006/d8612ffa060b392077322ccf2e953f35.jpg")
       = downloader.mkDownload "jpg bytes" None None
    /\ downloader.dl_err
         (archive_files.Download toc igshelf.Background
            (fixtures.located "photos/202006/cover.png"))
       = Some "file not found in archive photos/202006/cover.png".
Proof.
  eexists. split; [reflexivity|].
  destruct (archive_download_finds_listed_files fixtures.files _ igshelf.Background
              (fixtures.located "photos/202006/d8612ffa060b392077322ccf2e953f35.jpg")
              eq_refl) as (_ & _ & _ & Hlast).
  destruct (archive_download_finds_listed_files fixtures.files _ igshelf.Background
              (fixtures.located "photos/202006/cover.png") eq_refl) as (_ & Hun & _).
  split.
  - exact (Hlast (take 4 fixtures.files)
             (archive_files.mkFile "photos/202006/d8612ffa060b392077322ccf2e953f35.jpg"
                (archive_files.Data "jpg bytes"))
             [] eq_refl eq_refl (List.Forall_nil _) eq_refl).
  - apply Hun. reflexivity.
Defined.

(** X11. The iterator of package mock yields its batch: the loop over it
    collects the media of [Batch] in order, then [Next] returns [false] and
    [Err] returns [nil]. *)
Theorem mock_iterator_yields_its_batch (b : list igshelf.Media) (fuel : nat) :
  (length b < fuel)%nat ->
  exists it',
    igshelf.drain fuel (mock.new_iter b) = igshelf.Ok (b, it')
    /\ mock.Err it' = None
    /\ (mock.Next it').1 = false.
Proof.
  intros Hfuel. apply (mock_drain b b [] 0 None fuel); done.
Qed.

Lemma mock_iterator_yields_its_batch_scenario :
  exists it',
    igshelf.drain 4 (mock.new_iter testdata.scenario) = igshelf.Ok (testdata.scenario, it')
    /\ mock.Err it' = None
    /\ (mock.Next it').1 = false.
Proof. apply mock_iterator_yields_its_batch. simpl. lia. Defined.

(** X12. The size of the pool. The last [WithMaxWorkers] among the options
    of [NewService] decides: a negative size makes [NewService] panic; a
    size of zero gives a service whose run, once the timeline is listed and
    stored and holds at least one media, blocks for ever, and succeeds at
    once on an empty timeline; without the option the size is 10. *)
Theorem pool_size_decides_the_run {I : Type} `{igshelf.MediaIter I}
    (list_ : igshelf.Context -> I)
    (dl : igshelf.Context -> igshelf.Media -> downloader.download)
    (store : list igshelf.Media -> option error)
    (before after : list downloader_config.ConfigOption) (n : Z) :
  Forall (fun o => o = downloader_config.WithLogger) after ->
  downloader_config.NewService list_ dl store after
  = igshelf.Ok (downloader.mkService list_ dl store 10)
  /\ ((n < 0)%Z ->
      downloader_config.NewService list_ dl store
        (before ++ downloader_config.WithMaxWorkers n :: after) = igshelf.Panic)
  /\ ((0 <= n)%Z ->
      downloader_config.NewService list_ dl store
        (before ++ downloader_config.WithMaxWorkers n :: after)
      = igshelf.Ok (downloader.mkService list_ dl store n))
  /\ (forall grace fuel dir fs tl it,
        igshelf.drain fuel (list_ igshelf.Background) = igshelf.Ok (tl, it) ->
        igshelf.iter_Err it = None ->
        store tl = None ->
        downloader.Download (downloader.mkService list_ dl store 0) grace fuel
          igshelf.Background dir fs
        = match tl with
          | [] => igshelf.Ok (downloader.mkOutcome None fs [downloader.Stored [] None])
          | _ :: _ => igshelf.Deadlock
          end).
Proof.
  intros Hafter.
  assert (Hlog : forall s : downloader.Service I,
            foldl downloader_config.configure s after = s).
  { intros s. induction Hafter as [|o after -> _ IH]; [done|]. exact IH. }
  assert (Hset : forall s : downloader.Service I,
            downloader.ig_List s = list_ -> downloader.ig_Download s = dl ->
            downloader.db_Store s = store ->
            foldl downloader_config.configure s
              (before ++ downloader_config.WithMaxWorkers n :: after)
            = downloader.mkService list_ dl store n).
  { intros s H1 H2 H3. rewrite foldl_app. cbn [foldl]. rewrite Hlog.
    revert s H1 H2 H3. induction before as [|o before IH]; intros s H1 H2 H3.
    - cbn. by rewrite H1, H2, H3.
    - cbn [foldl]. apply IH; by destruct o. }
  unfold downloader_config.NewService. split; [|split; [|split]].
  - rewrite Hlog. cbn. by case_decide.
  - intros Hn. rewrite Hset by done. cbn. by case_decide; [|lia].
  - intros Hn. rewrite Hset by done. cbn. by case_decide; [lia|].
  - intros grace fuel dir fs tl it Hd He Hs. unfold downloader.Download.
    cbn [downloader.ig_List downloader.db_Store downloader.maxWorkers].
    rewrite Hd, He, Hs. case_decide; [lia|]. destruct tl as [|m tl]; [done|].
    cbn. done.
Qed.

Lemma pool_size_decides_the_run_zero :
  downloader_config.NewService (fun _ => mock.new_iter [testdata.video])
    testdata.download_all (fun _ => None)
    [downloader_config.WithMaxWorkers 3; downloader_config.WithMaxWorkers 0;
     downloader_config.WithLogger]
  = igshelf.Ok (downloader.mkService (fun _ => mock.new_iter [testdata.video])
                  testdata.download_all (fun _ => None) 0)
  /\ downloader.Download
       (downloader.mkService (fun _ => mock.new_iter [testdata.video])
          testdata.download_all (fun _ => None) 0)
       0 2 igshelf.Background "out" testdata.empty_disk
     = igshelf.Deadlock.
Proof.
  assert (Hlog : Forall (fun o => o = downloader_config.WithLogger)
                   [downloader_config.WithLogger]) by (repeat constructor).
  destruct (pool_size_decides_the_run (fun _ => mock.new_iter [testdata.video])
              testdata.download_all (fun _ => None)
              [downloader_config.WithMaxWorkers 3] [downloader_config.WithLogger] 0 Hlog)
    as (_ & _ & Hok & Hrun).
  split; [apply Hok; lia|].
  exact (Hrun 0%nat 2%nat "out" testdata.empty_disk [testdata.video]
           (mock.mkIter [testdata.video] None 1 (Some testdata.video))
           eq_refl eq_refl eq_refl).
Defined.

(** X13. The timeline in its JSON file. [Store] replaces the file whatever
    it held, touches no other file, and [List] then gives the timeline back
    (provided the decoder reads what the encoder wrote); [List] fails when
    the file is missing or does not decode; and [Store] writes nothing when
    the encoder fails. *)
Theorem jsonfile_store_then_list
    (Marshal : list igshelf.Media -> error + string)
    (Unmarshal : string -> error + list igshelf.Media)
    (r : jsonfile.MediaRepository) (tl : list igshelf.Media) (fs : os.FS) :
  let after := (jsonfile.Store Marshal r tl fs).1 in
  let failure := (jsonfile.Store Marshal r tl fs).2 in
  (forall b,
      Marshal tl = inr b -> Unmarshal b = inr tl ->
      os.faults fs !! jsonfile.filename r = None ->
      failure = None
      /\ jsonfile.List Unmarshal r after = inr tl
      /\ os.files after !! jsonfile.filename r = Some b
      /\ forall p, p <> jsonfile.filename r -> os.files after !! p = os.files fs !! p)
  /\ (forall e,
        Marshal tl = inl e ->
        after = fs
        /\ failure = Some (wrap ("failed to marshal timeline " +:+ jsonfile.filename r) e))
  /\ (os.files fs !! jsonfile.filename r = None ->
      exists e, jsonfile.List Unmarshal r fs = inl e)
  /\ (forall b e,
        os.files fs !! jsonfile.filename r = Some b -> Unmarshal b = inl e ->
        jsonfile.List Unmarshal r fs
        = inl (wrap ("failed to unmarshal timeline " +:+ jsonfile.filename r) e)).
Proof.
  intros after failure. unfold after, failure, jsonfile.Store, jsonfile.List, os.WriteFile.
  split; [|split; [|split]].
  - intros b Hm Hu Hf. rewrite Hm, Hf. cbn. rewrite lookup_insert_eq, Hu.
    repeat split; try done. intros p Hp. by apply lookup_insert_ne.
  - by intros e ->.
  - intros ->. by eexists.
  - intros b e -> ->. done.
Qed.

Lemma jsonfile_store_then_list_empty :
  let r := jsonfile.NewMediaRepository "out/timeline.json" in
  let fs := os.mkFS {[ "out/timeline.json" := "stale" ]} ∅ in
  jsonfile.List fixtures.Unmarshal_empty r
    (jsonfile.Store fixtures.Marshal_empty r [] fs).1 = inr []
  /\ (exists e, jsonfile.List fixtures.Unmarshal_empty r testdata.empty_disk = inl e)
  /\ jsonfile.List fixtures.Unmarshal_empty r fs
     = inl "failed to unmarshal timeline out/timeline.json: unexpected end of JSON input".
Proof.
  intros r fs.
  destruct (jsonfile_store_then_list fixtures.Marshal_empty fixtures.Unmarshal_empty r [] fs)
    as (Hok & _ & _ & Hbad).
  destruct (jsonfile_store_then_list fixtures.Marshal_empty fixtures.Unmarshal_empty r []
              testdata.empty_disk) as (_ & _ & Hmiss & _).
  split; [|split].
  - by destruct (Hok "null" eq_refl eq_refl eq_refl) as (_ & Hl & _).
  - apply Hmiss. reflexivity.
  - apply (Hbad "stale" "unexpected end of JSON input"); reflexivity.
Defined.

(** ** Names: file names of unknown types, ids of archived media *)
Section NameFacts.
Import igshelf.

Lemma length_append (s t : string) :
  String.length (s +:+ t) = (String.length s + String.length t)%nat.
Proof.
  induction s as [|a s IH]; [done|].
  change (S (String.length (s +:+ t)) = S (String.length s + String.length t)).
  by rewrite IH.
Qed.

Lemma substring_prefix (p t : string) : String.substring 0 (String.length p) (p +:+ t) = p.
Proof.
  induction p as [|a p IH]; [by destruct t|].
  change (String a (String.substring 0 (String.length p) (p +:+ t)) = String a p).
  by rewrite IH.
Qed.

Lemma after_last_split c s r :
  filepath.after_last c s = Some r -> exists p, s = p +:+ String c r.
Proof.
  revert r. induction s as [|a s IH]; intros r; [done|]. cbn [filepath.after_last].
  destruct (filepath.after_last c s) as [r'|] eqn:Hs.
  - intros [= <-]. destruct (IH r' eq_refl) as [p ->]. by exists (String a p).
  - destruct (Ascii.eqb_spec a c) as [->|]; [|done]. intros [= <-]. by exists "".
Qed.

(** The name without its extension, followed by the extension. *)
Lemma name_without_Ext fname :
  String.substring 0 (String.length fname - String.length (filepath.Ext fname)) fname
  +:+ filepath.Ext fname = fname.
Proof.
  unfold filepath.Ext. destruct (filepath.after_last "." fname) as [r|] eqn:Hr.
  - destruct (after_last_split _ _ _ Hr) as [p ->].
    change ("." +:+ r) with (String "." r).
    rewrite length_append. replace (String.length p + String.length (String "." r)
      - String.length (String "." r))%nat with (String.length p) by lia.
    by rewrite substring_prefix.
  - assert (Hnil : forall s : string, s +:+ "" = s).
    { intros s. induction s as [|a s IH]; [done|].
      change (String a (s +:+ "") = String a s). by rewrite IH. }
    cbn [String.length]. rewrite Nat.sub_0_r, Hnil.
    pose proof (substring_prefix fname "") as Hp. by rewrite Hnil in Hp.
Qed.

Lemma append_inv_tail (s s' t : string) : s +:+ t = s' +:+ t -> s = s'.
Proof.
  revert s'. induction s as [|a s IH]; intros [|a' s'] Heq; [done| | |].
  - apply (f_equal String.length) in Heq. rewrite !length_append in Heq.
    cbn [String.length] in Heq. lia.
  - apply (f_equal String.length) in Heq. rewrite !length_append in Heq.
    cbn [String.length] in Heq. lia.
  - change (String a (s +:+ t) = String a' (s' +:+ t)) in Heq.
    injection Heq as -> Heq. by rewrite (IH s' Heq).
Qed.

End NameFacts.

(** X14. A media of a type the code does not know has no file: when the
    type an entry of a page carries is none of IMAGE, CAROUSEL_ALBUM and
    VIDEO, the item built for it has an empty file name and an empty
    thumbnail file name, so a worker of the download service neither
    fetches it nor writes anything for it, and returns no error. *)
Theorem remote_unknown_type_is_never_copied (raw : instagram.media) :
  instagram.api_Type raw <> igshelf.MediaTypeImage ->
  instagram.api_Type raw <> igshelf.MediaTypeAlbum ->
  instagram.api_Type raw <> igshelf.MediaTypeVideo ->
  igshelf.Filename (instagram.item raw) = ""
  /\ igshelf.ThumbnailFilename (instagram.item raw) = ""
  /\ forall (I : Type) (s : downloader.Service I) (c : igshelf.Context)
            (dir : string) (fs : os.FS),
       downloader.worker s c dir (instagram.item raw) fs = (None, fs, []).
Proof.
  intros Hi Ha Hv.
  assert (Hf : forall fname, instagram.filenames (instagram.api_Type raw) fname = ("", "")).
  { intros fname. unfold instagram.filenames.
    destruct (String.eqb_spec (instagram.api_Type raw) igshelf.MediaTypeImage); [done|].
    destruct (String.eqb_spec (instagram.api_Type raw) igshelf.MediaTypeAlbum); [done|].
    by destruct (String.eqb_spec (instagram.api_Type raw) igshelf.MediaTypeVideo). }
  assert (Hn : igshelf.Filename (instagram.item raw) = "").
  { unfold instagram.item. cbn [igshelf.Filename]. by rewrite Hf. }
  split; [exact Hn|]. split.
  - unfold instagram.item. cbn [igshelf.ThumbnailFilename]. by rewrite Hf.
  - intros I s c dir fs. by apply worker_unnamed.
Qed.

Lemma remote_unknown_type_is_never_copied_story :
  let raw := instagram.mkRaw "1" "STORY" "" "https://cdn/1" "" "" testdata.T1 [] in
  igshelf.Filename (instagram.item raw) = ""
  /\ downloader.worker (testdata.mock_service [] testdata.download_all) igshelf.Background
       "out" (instagram.item raw) testdata.empty_disk
     = (None, testdata.empty_disk, []).
Proof.
  intros raw.
  destruct (remote_unknown_type_is_never_copied raw) as (Hf & _ & Hw); try discriminate.
  split; [exact Hf|apply Hw].
Defined.

(** X15. The id and the file name of an archived media. For every entry of
    the manifest, the id of the leaf built for it followed by the extension
    of its path is the base name of the path (the slice that cuts the
    extension off is always in range), its file name is the year and month
    of its date, an underscore, and that base name, and its location is the
    path itself. *)
Theorem archive_leaf_names (type : string) (raw : archive.media) :
  let fname := filepath.Split_file (archive.raw_Path raw) in
  let m := archive.leaf type raw in
  igshelf.ID m +:+ filepath.Ext fname = fname
  /\ igshelf.Filename m
     = time.Format_200601_ (archive.raw_TakenAt raw) +:+ igshelf.ID m +:+ filepath.Ext fname
  /\ igshelf.Location m = archive.raw_Path raw
  /\ (String.length (filepath.Ext fname) <= String.length fname)%nat.
Proof.
  intros fname m. unfold m, archive.leaf. fold fname.
  cbn [igshelf.ID igshelf.Filename igshelf.Location].
  pose proof (name_without_Ext fname) as Hname.
  split; [exact Hname|]. split; [by rewrite Hname|]. split; [done|].
  rewrite <- Hname at 2. rewrite length_append. lia.
Qed.

(** ** The archive iterator: unique ids, and the end of the iteration *)
Section IdFacts.
Import igshelf archive grouping.

Lemma queue_cons m tl :
  downloader.queue (m :: tl) = m :: Children m ++ downloader.queue tl.
Proof. done. Qed.

Lemma queue_head_ids (r : run) x :
  Children r.1 = [] ->
  x ∈ ID <$> (item_of_run r :: Children (item_of_run r)) ->
  (exists a, a ∈ members r /\ x = ID a) \/ x = ID r.1 +:+ "album".
Proof.
  destruct r as [m fl]. unfold item_of_run, members. cbn [fst snd]. intros Hm.
  destruct fl as [|f fl].
  - rewrite Hm. intros Hx. apply list_elem_of_singleton in Hx as ->.
    left. exists m. split; [left|done].
  - rewrite fmap_cons. cbn [album Children ID members fst snd].
    intros [->|Hx]%elem_of_cons; [by right|].
    apply list_elem_of_fmap in Hx as (a & -> & Ha). left. by exists a.
Qed.

Lemma queue_ids (rs : list run) x :
  Forall (fun r : run => Children r.1 = []) rs ->
  x ∈ ID <$> downloader.queue (item_of_run <$> rs) ->
  exists a, a ∈ flat_map members rs /\ (x = ID a \/ x = ID a +:+ "album").
Proof.
  induction 1 as [|r rs Hr _ IH]; cbn [fmap list_fmap].
  { intros Hx. by apply elem_of_nil in Hx. }
  change (list_fmap _ _ item_of_run rs) with (item_of_run <$> rs).
  rewrite queue_cons, app_comm_cons, fmap_app. cbn [flat_map].
  intros [Hx|Hx]%elem_of_app.
  - destruct (queue_head_ids r x Hr Hx) as [(a & Ha & ->) | ->].
    + exists a. split; [apply elem_of_app; by left|by left].
    + exists r.1. split; [apply elem_of_app; left; left|by right].
  - destruct (IH Hx) as (a & Ha & Hor). exists a. split; [apply elem_of_app; by right|done].
Qed.

Lemma queue_ids_NoDup (rs : list run) :
  Forall (fun r : run => Children r.1 = []) rs ->
  NoDup (ID <$> flat_map members rs) ->
  (forall a b, a ∈ flat_map members rs -> b ∈ flat_map members rs ->
     ID a <> ID b +:+ "album") ->
  NoDup (ID <$> downloader.queue (item_of_run <$> rs)).
Proof.
  induction 1 as [|r rs Hr Hrs IH]; cbn [fmap list_fmap flat_map]; [constructor|].
  change (list_fmap _ _ item_of_run rs) with (item_of_run <$> rs).
  rewrite queue_cons, app_comm_cons, !fmap_app.
  intros [Hnd1 [Hdisj Hnd2]]%NoDup_app Hsuffix.
  assert (Hin1 : forall a, a ∈ members r -> a ∈ members r ++ flat_map members rs).
  { intros a Ha. apply elem_of_app. by left. }
  assert (Hin2 : forall a, a ∈ flat_map members rs -> a ∈ members r ++ flat_map members rs).
  { intros a Ha. apply elem_of_app. by right. }
  apply NoDup_app. split; [|split].
  - destruct r as [m fl]. unfold item_of_run, members in *. cbn [fst snd] in *.
    destruct fl as [|f fl].
    + rewrite Hr. cbn. apply NoDup_singleton.
    + rewrite fmap_cons. cbn [album Children ID members fst snd]. constructor; [|done].
      intros Hx. apply list_elem_of_fmap in Hx as (a & Heq & Ha).
      by apply (Hsuffix a m (Hin1 a Ha) (Hin1 m ltac:(left))).
  - intros x Hx Hx'.
    destruct (queue_ids rs x Hrs Hx') as (a' & Ha' & Hor).
    destruct (queue_head_ids r x Hr Hx) as [(a & Ha & ->) | ->].
    + destruct Hor as [Heq|Heq].
      * apply (Hdisj (ID a)); [by apply list_elem_of_fmap_2|].
        rewrite Heq. by apply list_elem_of_fmap_2.
      * by apply (Hsuffix a a' (Hin1 a Ha) (Hin2 a' Ha')).
    + destruct Hor as [Heq|Heq].
      * symmetry in Heq. apply (Hsuffix a' r.1 (Hin2 a' Ha') (Hin1 r.1 ltac:(left)) Heq).
      * apply append_inv_tail in Heq.
        apply (Hdisj (ID r.1)); [apply list_elem_of_fmap_2; left|].
        rewrite Heq. by apply list_elem_of_fmap_2.
  - apply IH; [done|]. intros a b Ha Hb. apply Hsuffix; auto.
Qed.





End IdFacts.

(** X16. The ids of a reconstructed timeline stay unique. Over a flat
    timeline whose ids are pairwise different, and in which no id is another
    id followed by "album", the ids of all the media of the queue of the
    download service (the items the iterator yields and the children of the
    albums among them) are pairwise different. *)
Theorem archive_ids_stay_unique
    (c : igshelf.Context) (tl : list igshelf.Media) (fuel : nat) :
  igshelf.ctx_Err c = None ->
  grouping.flat tl ->
  NoDup (igshelf.ID <$> tl) ->
  (forall a b, a ∈ tl -> b ∈ tl -> igshelf.ID a <> igshelf.ID b +:+ "album") ->
  (length tl < fuel)%nat ->
  exists out it',
    igshelf.drain fuel (archive.new_iter c tl) = igshelf.Ok (out, it')
    /\ NoDup (igshelf.ID <$> downloader.queue out)
    /\ NoDup (igshelf.ID <$> out).
Proof.
  intros Hc Hflat Hnd Hsuffix Hfuel.
  destruct (drain_runs c (length tl) tl [] None 0 fuel) as (it' & Hd & _); try done.
  eexists _, it'. split; [exact Hd|].
  assert (Hq : NoDup (igshelf.ID <$> downloader.queue (grouping.item_of_run <$> grouping.runs tl))).
  { apply queue_ids_NoDup; rewrite ?runs_members; try done.
    apply Forall_forall. intros r Hr. unfold grouping.flat in Hflat.
    rewrite Forall_forall in Hflat. by apply Hflat, runs_first_in. }
  split; [exact Hq|].
  eapply sublist_NoDup; [exact Hq|]. apply fmap_sublist.
  generalize (grouping.item_of_run <$> grouping.runs tl). intros l.
  induction l as [|m l IH]; [constructor|].
  rewrite queue_cons. apply sublist_skip. etrans; [exact IH|].
  apply sublist_inserts_l. reflexivity.
Qed.

Lemma archive_ids_stay_unique_scenario :
  exists out it',
    igshelf.drain 4 (archive.new_iter igshelf.Background testdata.scenario)
    = igshelf.Ok (out, it')
    /\ NoDup (igshelf.ID <$> downloader.queue out)
    /\ NoDup (igshelf.ID <$> out).
Proof.
  apply archive_ids_stay_unique.
  - reflexivity.
  - repeat constructor.
  - apply (bool_decide_unpack _). vm_compute. exact I.
  - assert (Hall : Forall (fun a => Forall (fun b =>
             igshelf.ID a <> igshelf.ID b +:+ "album") testdata.scenario)
           testdata.scenario).
    { apply (bool_decide_unpack _). vm_compute. exact I. }
    intros a b Ha Hb. rewrite Forall_forall in Hall. specialize (Hall a Ha).
    rewrite Forall_forall in Hall. by apply Hall.
  - simpl. lia.
Defined.


